(** * rename.py: case conventions and needle substitution

    A shallow embedding of the pure core of [rename.py] (the case converters,
    the case classifier, the variation generator and the two substitution
    loops) together with the control flow of [rename_files] and
    [replace_in_files], and the properties of the design document that were
    checked against it.

    Modelling conventions.
    - A Python [str] is a [string]; a character is an [ascii].  The case
      operations ([str.lower], [str.capitalize]) act on the ASCII letters,
      which is what Python does on ASCII text; code points above 127 are
      outside the model and are treated as caseless symbols.
    - A Python [dict] is an association list in insertion order, since the
      loops of the program depend on the iteration order.
    - A raised exception is the [Raise] branch of [result]. *)

From Stdlib Require Import Bool Arith Lia List Ascii String.
Import ListNotations.
Open Scope string_scope.

(** ** The fragment of Python's [str] that the program uses *)

Module Py.

Inductive exn : Type :=
| ValueError (msg : string)
| KeyError (key : string)
| FileNotFoundError
| EOFError.

Inductive result (A : Type) : Type :=
| Ok (a : A)
| Raise (e : exn).

Arguments Ok {A} a.
Arguments Raise {A} e.

Definition raises {A : Type} (m : result A) : bool :=
  match m with
  | Ok _ => false
  | Raise _ => true
  end.

(** Character classes, as the regular expressions of the program write them. *)

Definition in_range (lo hi c : ascii) : bool :=
  (Ascii.leb lo c && Ascii.leb c hi)%bool.

Definition is_upper (c : ascii) : bool := in_range "A" "Z" c.
Definition is_lower (c : ascii) : bool := in_range "a" "z" c.
Definition is_digit (c : ascii) : bool := in_range "0" "9" c.

Definition lower_char (c : ascii) : ascii :=
  if is_upper c then ascii_of_nat (nat_of_ascii c + 32) else c.

Definition upper_char (c : ascii) : ascii :=
  if is_lower c then ascii_of_nat (nat_of_ascii c - 32) else c.

Fixpoint map_chars (f : ascii -> ascii) (s : string) : string :=
  match s with
  | EmptyString => EmptyString
  | String c r => String (f c) (map_chars f r)
  end.

(** [s.lower()] *)
Definition lower (s : string) : string := map_chars lower_char s.

(** [s.capitalize()]: the first character in upper case, the rest in lower
    case. *)
Definition capitalize (s : string) : string :=
  match s with
  | EmptyString => EmptyString
  | String c r => String (upper_char c) (lower r)
  end.

(** [''.join(words)] *)
Fixpoint join (words : list string) : string :=
  match words with
  | [] => EmptyString
  | w :: ws => w ++ join ws
  end.

(** [s.split(sep)] for a one-character separator, as the pair
    [(parts[0], parts[1:])]: the result of [split] is never empty. *)
Fixpoint split_parts (sep : ascii) (s : string) : string * list string :=
  match s with
  | EmptyString => (EmptyString, [])
  | String c r =>
      let (w, ws) := split_parts sep r in
      if Ascii.eqb c sep then (EmptyString, w :: ws) else (String c w, ws)
  end.

Definition split (sep : ascii) (s : string) : list string :=
  let (w, ws) := split_parts sep s in w :: ws.

(** [needle in hay] *)
Fixpoint contains (needle hay : string) : bool :=
  (prefix needle hay ||
   match hay with
   | EmptyString => false
   | String _ r => contains needle r
   end)%bool.

(** [s.replace(old, new)].  Python scans from the left and, on an occurrence
    of [old], emits [new] and resumes after the occurrence; [skip] counts the
    characters of the occurrence still to be passed over. *)
Fixpoint replace_from (old new : string) (skip : nat) (s : string) : string :=
  match s with
  | EmptyString => EmptyString
  | String c r =>
      match skip with
      | S k => replace_from old new k r
      | O =>
          if prefix old s
          then new ++ replace_from old new (length old - 1) r
          else String c (replace_from old new 0 r)
      end
  end.

(** With an empty [old], Python puts [new] before every character and at the
    end. *)
Fixpoint intersperse (new s : string) : string :=
  match s with
  | EmptyString => new
  | String c r => new ++ String c (intersperse new r)
  end.

Definition replace (s old new : string) : string :=
  match old with
  | EmptyString => intersperse new s
  | String _ _ => replace_from old new 0 s
  end.

(** [s.endswith(suffix)] *)
Fixpoint endswith (s suffix : string) : bool :=
  (String.eqb s suffix ||
   match s with
   | EmptyString => false
   | String _ r => endswith r suffix
   end)%bool.

End Py.

Import Py.

(** ** Regular expressions

    The classifier matches its argument against four patterns.  A pattern is
    embedded as a value of [regex] and matched with Brzozowski derivatives. *)

Module Re.

Inductive regex : Type :=
| Void
| Eps
| Class (p : ascii -> bool)
| Cat (r1 r2 : regex)
| Alt (r1 r2 : regex)
| Star (r : regex).

(** [r+] *)
Definition Plus (r : regex) : regex := Cat r (Star r).

(** A literal character. *)
Definition Chr (c : ascii) : regex := Class (Ascii.eqb c).

Fixpoint nullable (r : regex) : bool :=
  match r with
  | Void => false
  | Eps => true
  | Class _ => false
  | Cat r1 r2 => nullable r1 && nullable r2
  | Alt r1 r2 => nullable r1 || nullable r2
  | Star _ => true
  end.

Fixpoint deriv (c : ascii) (r : regex) : regex :=
  match r with
  | Void => Void
  | Eps => Void
  | Class p => if p c then Eps else Void
  | Cat r1 r2 =>
      if nullable r1
      then Alt (Cat (deriv c r1) r2) (deriv c r2)
      else Cat (deriv c r1) r2
  | Alt r1 r2 => Alt (deriv c r1) (deriv c r2)
  | Star r1 => Cat (deriv c r1) (Star r1)
  end.

(** The whole of [s] is a word of [r]. *)
Fixpoint fullmatch (r : regex) (s : string) : bool :=
  match s with
  | EmptyString => nullable r
  | String c s' => fullmatch (deriv c r) s'
  end.

(** The words of a regular expression, as a relation. *)
Inductive Matches : regex -> string -> Prop :=
| MEps : Matches Eps EmptyString
| MClass p c : p c = true -> Matches (Class p) (String c EmptyString)
| MCat r1 r2 s1 s2 :
    Matches r1 s1 -> Matches r2 s2 -> Matches (Cat r1 r2) (s1 ++ s2)
| MAltL r1 r2 s : Matches r1 s -> Matches (Alt r1 r2) s
| MAltR r1 r2 s : Matches r2 s -> Matches (Alt r1 r2) s
| MStarNil r : Matches (Star r) EmptyString
| MStarCons r s1 s2 :
    Matches r s1 -> Matches (Star r) s2 -> Matches (Star r) (s1 ++ s2).

(** [s] without its last character, when that character is a newline. *)
Fixpoint chomp (s : string) : option string :=
  match s with
  | EmptyString => None
  | String c r =>
      match r with
      | EmptyString => if Ascii.eqb c "010" then Some EmptyString else None
      | String _ _ =>
          match chomp r with
          | Some r' => Some (String c r')
          | None => None
          end
      end
  end.

(** [re.match('^' body '$', s)] is not [None].  Without [re.MULTILINE], [^]
    holds at position 0 only and [$] holds at the end of the string and also
    just before a newline that is the last character of the string. *)
Definition match_anchored (body : regex) (s : string) : bool :=
  fullmatch body s ||
  match chomp s with
  | Some s' => fullmatch body s'
  | None => false
  end.

End Re.

Import Re.

(** ** Case converters *)

(** [''.join(word.capitalize() for word in kebab_str.split('-'))] *)
Definition to_pascal_case (kebab_str : string) : string :=
  join (map capitalize (split "-" kebab_str)).

Definition to_camel_case (kebab_str : string) : string :=
  let (first, rest) := split_parts "-" kebab_str in
  lower first ++ join (map capitalize rest).

Definition to_snake_case (s : string) : string := replace s "-" "_".

(** [re.sub(r'(?<!^)(?=[A-Z])', '-', s)].  The pattern matches the empty
    string at every position that is not the start of the string (the
    lookbehind [(?<!^)]) and is followed by a character of [A-Z] (the
    lookahead); [start] tells whether the position before [s] is the start. *)
Fixpoint sub_before_upper (start : bool) (s : string) : string :=
  match s with
  | EmptyString => EmptyString
  | String c r =>
      if negb start && is_upper c
      then String "-" (String c (sub_before_upper false r))
      else String c (sub_before_upper false r)
  end.

(** [re.sub(r'-+', '-', s)].  A match of [-+] starts at a hyphen and, being
    greedy, takes the whole run; [in_run] tells whether the previous
    character belongs to the match being replaced. *)
Fixpoint sub_hyphen_runs (in_run : bool) (s : string) : string :=
  match s with
  | EmptyString => EmptyString
  | String c r =>
      if Ascii.eqb c "-"
      then if in_run then sub_hyphen_runs true r
           else String "-" (sub_hyphen_runs true r)
      else String c (sub_hyphen_runs false r)
  end.

Definition to_kebab_case (s : string) : string :=
  let s := replace (replace s "_" "-") " " "-" in
  let kebab_case_string := lower (sub_before_upper true s) in
  let kebab_case_string := sub_hyphen_runs false kebab_case_string in
  kebab_case_string.

(** ** Case classifier *)

Definition lower_or_digit (c : ascii) : bool := is_lower c || is_digit c.
Definition alnum (c : ascii) : bool := is_lower c || is_upper c || is_digit c.

(** [[a-z0-9]+(?:_[a-z0-9]+)*] *)
Definition snake_re : regex :=
  Cat (Plus (Class lower_or_digit))
      (Star (Cat (Chr "_") (Plus (Class lower_or_digit)))).

(** [[a-z0-9]+(?:-[a-z0-9]+)*] *)
Definition kebab_re : regex :=
  Cat (Plus (Class lower_or_digit))
      (Star (Cat (Chr "-") (Plus (Class lower_or_digit)))).

(** [[a-z][a-zA-Z0-9]*] *)
Definition camel_re : regex := Cat (Class is_lower) (Star (Class alnum)).

(** [[A-Z][a-zA-Z0-9]*] *)
Definition pascal_re : regex := Cat (Class is_upper) (Star (Class alnum)).

(** The dictionary [patterns], in the order of its literal; every pattern is
    written between [^] and [$] in the source. *)
Definition patterns : list (string * regex) :=
  [ ("snake_case", snake_re);
    ("kebab-case", kebab_re);
    ("camelCase", camel_re);
    ("PascalCase", pascal_re) ].

Fixpoint first_match (items : list (string * regex)) (s : string) : string :=
  match items with
  | [] => "other"
  | (case, pattern) :: rest =>
      if match_anchored pattern s then case else first_match rest s
  end.

Definition detect_case_type (s : string) : string := first_match patterns s.

Definition convert_string (s to_case : string) : result string :=
  let kebab := to_kebab_case s in
  if to_case =? "camelCase" then Ok (to_camel_case kebab)
  else if to_case =? "PascalCase" then Ok (to_pascal_case kebab)
  else if to_case =? "snake_case" then Ok (to_snake_case kebab)
  else if to_case =? "kebab-case" then Ok kebab
  else if to_case =? "other" then Ok s
  else Raise (ValueError ("Unsupported target case: " ++ to_case)).

(** ** Variation generator *)

Definition dict : Type := list (string * string).

(** [d[key]], with [None] for a [KeyError]. *)
Fixpoint dict_get (d : dict) (key : string) : option string :=
  match d with
  | [] => None
  | (k, v) :: rest => if k =? key then Some v else dict_get rest key
  end.

(** A dictionary with the five keys of a variation set, in their order. *)
Definition variation_set (original camel pascal snake kebab : string) : dict :=
  [ ("original", original);
    ("camelCase", camel);
    ("PascalCase", pascal);
    ("snake_case", snake);
    ("kebab-case", kebab) ].

Definition generate_all_case_variations (text : string) : dict :=
  let _ := detect_case_type text in
  let kebab := to_kebab_case text in
  [ ("original", text);
    ("camelCase", to_camel_case kebab);
    ("PascalCase", to_pascal_case kebab);
    ("snake_case", to_snake_case kebab);
    ("kebab-case", kebab) ].

(** ** Substitution *)

(** The loop of [replace_text_in_filename] over [needle_variations.items()]. *)
Fixpoint replace_first (filename : string) (items : dict)
    (replacement_variations : dict) : result string :=
  match items with
  | [] => Ok filename
  | (case_type, needle_variation) :: rest =>
      if contains needle_variation filename
      then match dict_get replacement_variations case_type with
           | Some r => Ok (replace filename needle_variation r)
           | None => Raise (KeyError case_type)
           end
      else replace_first filename rest replacement_variations
  end.

Definition replace_text_in_filename (filename : string)
    (needle_variations replacement_variations : dict) : result string :=
  replace_first filename needle_variations replacement_variations.

(** The loop of [replace_in_files] that computes [new_content]: the test is
    made on [content], the text read from the file, and the replacement on
    [new_content]. *)
Fixpoint replace_each (content new_content : string) (items : dict)
    (replacement_variations : dict) : result string :=
  match items with
  | [] => Ok new_content
  | (case, variation) :: rest =>
      if contains variation content
      then match dict_get replacement_variations case with
           | Some r =>
               replace_each content (replace new_content variation r) rest
                 replacement_variations
           | None => Raise (KeyError case)
           end
      else replace_each content new_content rest replacement_variations
  end.

Definition replace_content (content : string)
    (needle_variations replacement_variations : dict) : result string :=
  let new_content := content in
  replace_each content new_content needle_variations replacement_variations.

(** ** Traversal: [rename_files] and [replace_in_files]

    The directory given to the program is a [tree]: the files of a directory
    with their text, and its subdirectories.  The effects recorded are the
    calls of [os.rename] and the files written; [print] is not modelled, and
    the answers typed at the prompts of [input] are a list of lines. *)

Module Os.

#[local] Set Warnings "-register-all".

Inductive tree : Type :=
| Dir (files : list (string * string)) (dirs : list (string * tree)).

(** [os.listdir(directory)] *)
Definition listdir (t : tree) : list string :=
  match t with
  | Dir files dirs => (map fst files ++ map fst dirs)%list
  end.

(** [os.path.join(a, b)] *)
Definition path_join (a b : string) : string :=
  if prefix "/" b then b
  else if (a =? "") || endswith a "/" then a ++ b
  else a ++ "/" ++ b.

Inductive event : Type :=
| Rename (src dst : string)
| WriteFile (path content : string).

(** The effects of a run and the exception that ended it, if any. *)
Definition outcome : Type := (list event * option exn)%type.

Definition done : outcome := ([], None).

Definition andthen (a b : outcome) : outcome :=
  match snd a with
  | Some _ => a
  | None => ((fst a ++ fst b)%list, snd b)
  end.

(** [input(prompt).lower() == 'y'], and the lines left to read. *)
Definition confirm (stdin : list string) : result (bool * list string) :=
  match stdin with
  | [] => Raise EOFError
  | line :: rest => Ok (lower line =? "y", rest)
  end.

End Os.

Import Os.

Definition text_file_extensions : list string :=
  [
    ".txt"; ".md"; ".py"; ".js"; ".java"; ".c"; ".cpp"; ".cs"; ".h";
    ".html"; ".css"; ".scss"; ".less"; ".json"; ".xml"; ".yaml"; ".yml";
    ".csv"; ".log"; ".ini"; ".conf"; ".cfg"; ".plist"; ".php"; ".sh";
    ".bat"; ".cmd"; ".ps1"; ".vbs"; ".rb"; ".go"; ".lua"; ".pl";
    ".hs"; ".lhs"; ".scala"; ".sbt"; ".swift"; ".sql"; ".r"; ".m";
    ".tex"; ".cls"; ".sty"; ".bib"; ".kt"; ".groovy"; ".gd"; ".tcl";
    ".rst"; ".rest"; ".http"; ".properties"; ".toml"; ".rs"; ".dart";
    ".xhtml"; ".jsp"; ".jspx"; ".asp"; ".aspx"; ".erb"; ".twig";
    ".jl"; ".ex"; ".exs"; ".eex"; ".leex"; ".svelte"; ".vue";
    ".elm"; ".cljs"; ".clj"; ".edn"; ".coffee"; ".litcoffee"; ".iced";
    ".aj"; ".asm"; ".s"; ".pas"; ".p"; ".pp"; ".f"; ".for"; ".f90"; ".f95";
    ".ml"; ".mli"; ".sml"; ".thy"; ".hs"; ".lhs"; ".pyw"; ".rpy";
    ".rego"; ".rs"; ".d"; ".rkt"; ".sch"; ".rktl"; ".scm"; ".ess";
    ".rhtml"; ".erb"; ".mustache"; ".hbs"; ".phtml"; ".twig"; ".ctp";
    ".module"; ".inc"; ".bash"; ".ksh"; ".csh"; ".fish"; ".awk";
    ".ps"; ".nix"; ".bb"; ".bbappend"; ".bbclass"; ".recipe";
    ".lisp"; ".lsp"; ".l"; ".ny"; ".pod"; ".pm"; ".t"; ".pl";
    ".php4"; ".php5"; ".phtml"; ".ctp"; ".twig"; ".module";
    ".vb"; ".bas"; ".cls"; ".ctl"; ".dsr"; ".frm"; ".vba";
    ".applescript"; ".osascript"; ".ino"; ".eps"; ".pgn"; ".sk";
    ".brs"; ".brightscript"; ".sublime-commands"; ".sublime-completions";
    ".sublime-keymap"; ".sublime-macro"; ".sublime-menu"; ".sublime-mousemap";
    ".sublime-project"; ".sublime-settings"; ".sublime-snippet"; ".sublime-theme";
    ".sublime-workspace"; ".sublime_metrics"; ".sublime_session"
  ].

Definition is_text_file_by_ext (filename : string) : bool :=
  existsb (fun ext => endswith (lower filename) ext) text_file_extensions.

Definition directory_error (directory : string) : exn :=
  ValueError ("The directory '" ++ directory ++ "' is empty or does not exist.").

Definition needle_error : exn :=
  ValueError "The needle must not be empty or only whitespace.".

Section Traversal.

(** [fnmatch.fnmatch(filename, pattern)] of the standard library. *)
Variable fnmatch : string -> string -> bool.

Variables (needle_variations replacement_variations : dict).
Variables (exclude_dirs exclude_extensions : list string).
Variable dry_run : bool.

Fixpoint rename_in_dir (root : string) (files : list string) : outcome :=
  match files with
  | [] => done
  | filename :: rest =>
      match replace_text_in_filename filename
              needle_variations replacement_variations with
      | Raise e => ([], Some e)
      | Ok new_filename =>
          let original_file_path := path_join root filename in
          let new_file_path := path_join root new_filename in
          andthen
            (if negb (new_filename =? filename) && negb dry_run
             then ([Rename original_file_path new_file_path], None)
             else done)
            (rename_in_dir root rest)
      end
  end.

(** [for root, dirs, files in os.walk(directory)], with the directories of
    [exclude_dirs] pruned from [dirs]. *)
Fixpoint rename_walk (root : string) (t : tree) : outcome :=
  match t with
  | Dir files dirs =>
      andthen (rename_in_dir root (map fst files))
        ((fix subdirs (ds : list (string * tree)) : outcome :=
            match ds with
            | [] => done
            | (d, sub) :: more =>
                andthen
                  (if existsb (String.eqb d) exclude_dirs then done
                   else rename_walk (path_join root d) sub)
                  (subdirs more)
            end) dirs)
  end.

Fixpoint replace_in_dir (root : string) (files : list (string * string))
    : outcome :=
  match files with
  | [] => done
  | (filename, content) :: rest =>
      let file_path := path_join root filename in
      if negb (is_text_file_by_ext filename)
         || existsb (fun pat => fnmatch filename pat) exclude_extensions
      then replace_in_dir root rest
      else
        match replace_content content
                needle_variations replacement_variations with
        | Raise e => ([], Some e)
        | Ok new_content =>
            andthen
              (if negb (new_content =? content) && negb dry_run
               then ([WriteFile file_path new_content], None)
               else done)
              (replace_in_dir root rest)
        end
  end.

Fixpoint replace_walk (root : string) (t : tree) : outcome :=
  match t with
  | Dir files dirs =>
      andthen (replace_in_dir root files)
        ((fix subdirs (ds : list (string * tree)) : outcome :=
            match ds with
            | [] => done
            | (d, sub) :: more =>
                andthen
                  (if existsb (String.eqb d) exclude_dirs then done
                   else replace_walk (path_join root d) sub)
                  (subdirs more)
            end) dirs)
  end.

End Traversal.

(** The two confirmation steps shared by [rename_files] and
    [replace_in_files]: the first when the replacement is empty, the second
    before the operation; [k] is the rest of the function. *)
Definition with_confirmations (replacement : string) (ask : bool)
    (stdin : list string) (k : outcome) : outcome :=
  match (if (replacement =? "") && ask then confirm stdin
         else Ok (true, stdin)) with
  | Raise e => ([], Some e)
  | Ok (false, _) => done
  | Ok (true, stdin) =>
      match (if ask then confirm stdin else Ok (true, stdin)) with
      | Raise e => ([], Some e)
      | Ok (false, _) => done
      | Ok (true, _) => k
      end
  end.

(** [directory] is the path given and [fs] what the file system holds there
    ([None] when there is no such directory). *)
Definition rename_files (directory : string) (fs : option tree)
    (needle replacement : string) (exclude_dirs : list string)
    (dry_run ask : bool) (stdin : list string) : outcome :=
  match fs with
  | None => ([], Some FileNotFoundError)
  | Some t =>
      match listdir t with
      | [] => ([], Some (directory_error directory))
      | _ :: _ =>
          if needle =? "" then ([], Some needle_error)
          else
            with_confirmations replacement ask stdin
              (let needle_variations := generate_all_case_variations needle in
               let replacement_variations :=
                 generate_all_case_variations replacement in
               rename_walk needle_variations replacement_variations
                 exclude_dirs dry_run directory t)
      end
  end.

Definition replace_in_files (fnmatch : string -> string -> bool)
    (directory : string) (fs : option tree)
    (needle replacement : string)
    (exclude_dirs exclude_extensions : list string)
    (dry_run ask : bool) (stdin : list string) : outcome :=
  match fs with
  | None => ([], Some FileNotFoundError)
  | Some t =>
      match listdir t with
      | [] => ([], Some (directory_error directory))
      | _ :: _ =>
          if needle =? "" then ([], Some needle_error)
          else
            with_confirmations replacement ask stdin
              (let needle_variations := generate_all_case_variations needle in
               let replacement_variations :=
                 generate_all_case_variations replacement in
               replace_walk fnmatch needle_variations replacement_variations
                 exclude_dirs exclude_extensions dry_run directory t)
      end
  end.

(** ** The design document's side

    Definitions that follow the words of the design document rather than the
    program; the theorems below compare the two. *)

(** [needle] is a literal substring of [hay]. *)
Definition Substring (needle hay : string) : Prop :=
  exists pre post, hay = pre ++ needle ++ post.

(** The keys of a variation set, in their declared order. *)
Definition case_keys : list string :=
  ["original"; "camelCase"; "PascalCase"; "snake_case"; "kebab-case"].

(** Every character of [s] satisfies [p]. *)
Fixpoint all_chars (p : ascii -> bool) (s : string) : bool :=
  match s with
  | EmptyString => true
  | String c r => p c && all_chars p r
  end.

(** Step (a) of the canonicalisation: underscores and spaces become
    hyphens. *)
Definition separator_to_hyphen (c : ascii) : ascii :=
  if Ascii.eqb c "_" || Ascii.eqb c " " then "-"%char else c.

Definition kebab_step_a (s : string) : string :=
  map_chars separator_to_hyphen s.






(** Content substitution as the design document words it: the test of each
    key is made on the content as modified so far. *)
Fixpoint substituteInContent_spec (content : string) (items : dict)
    (replacement_variations : dict) : result string :=
  match items with
  | [] => Ok content
  | (case, variation) :: rest =>
      if contains variation content
      then match dict_get replacement_variations case with
           | Some r =>
               substituteInContent_spec (replace content variation r) rest
                 replacement_variations
           | None => Raise (KeyError case)
           end
      else substituteInContent_spec content rest replacement_variations
  end.

(** One step of the content loop of the program: the variant [n] is looked
    for in [content], the text read from the file, and replaced in [cur], the
    text as modified so far. *)
Definition ContentStep (content cur n r next : string) : Prop :=
  (Substring n content /\ next = replace cur n r)
  \/ (~ Substring n content /\ next = cur).

Definition is_letter (c : ascii) : bool := is_lower c || is_upper c.

(** The token [w] begins with a letter. *)
Definition begins_with_letter (w : string) : bool :=
  match w with
  | EmptyString => false
  | String c _ => is_letter c
  end.

(** The characters that a canonical kebab form can hold: everything but the
    uppercase letters, the underscore and the space. *)
Definition kebab_char (c : ascii) : bool :=
  negb (is_upper c) && negb (Ascii.eqb c "_") && negb (Ascii.eqb c " ").

(** The canonicalisation before its last step, the collapse of the runs of
    hyphens; [start] as in [sub_before_upper]. *)
Definition hyphenate (start : bool) (s : string) : string :=
  lower (sub_before_upper start (kebab_step_a s)).

(** Characters other than the three separators of the canonicalisation. *)
Definition plain_char (c : ascii) : bool :=
  negb (Ascii.eqb c "-") && negb (Ascii.eqb c "_") && negb (Ascii.eqb c " ").

(** The characters that a string left alone by the conversion to snake_case
    can hold: everything but the uppercase letters, the space and the
    hyphen. *)
Definition snake_char (c : ascii) : bool :=
  negb (is_upper c) && negb (Ascii.eqb c " ") && negb (Ascii.eqb c "-").

(** Some character of [s] satisfies [p]. *)
Fixpoint any_char (p : ascii -> bool) (s : string) : bool :=
  match s with
  | EmptyString => false
  | String c r => p c || any_char p r
  end.

(** [s] with its first character in lower case, and in upper case. *)
Definition lower_first (s : string) : string :=
  match s with
  | EmptyString => EmptyString
  | String c r => String (lower_char c) r
  end.

Definition upper_first (s : string) : string :=
  match s with
  | EmptyString => EmptyString
  | String c r => String (upper_char c) r
  end.

(** What follows the first character of a word of
    [[a-z0-9]+(sep [a-z0-9]+)*]: lowercase letters, digits and separators,
    every separator followed by a lowercase letter or a digit. *)
Fixpoint separated_tail (sep : ascii) (s : string) : bool :=
  match s with
  | EmptyString => true
  | String c r =>
      if Ascii.eqb c sep
      then match r with
           | EmptyString => false
           | String c' _ => lower_or_digit c' && negb (Ascii.eqb c' sep)
           end && separated_tail sep r
      else lower_or_digit c && separated_tail sep r
  end.

(** Induction on a directory tree, with the property at hand for every
    subdirectory. *)
Fixpoint tree_induction (P : tree -> Prop)
    (step : forall files dirs,
        Forall (fun d => P (snd d)) dirs -> P (Dir files dirs))
    (t : tree) : P t :=
  match t with
  | Dir files dirs =>
      step files dirs
        ((fix each (ds : list (string * tree))
            : Forall (fun d => P (snd d)) ds :=
            match ds with
            | [] => Forall_nil _
            | d :: more =>
                Forall_cons d (tree_induction P step (snd d)) (each more)
            end) dirs)
  end.

(** The files of a tree, each with the path of its directory, its name and
    its text. *)
Fixpoint files_under (root : string) (t : tree)
    : list (string * string * string) :=
  match t with
  | Dir files dirs =>
      (map (fun f => (root, fst f, snd f)) files ++
       (fix each (ds : list (string * tree)) :=
          match ds with
          | [] => []
          | (d, sub) :: more =>
              files_under (path_join root d) sub ++ each more
          end) dirs)%list
  end.

(** The tree without the directories named in [exclude_dirs], at any
    depth below the root. *)
Fixpoint prune (exclude_dirs : list string) (t : tree) : tree :=
  match t with
  | Dir files dirs =>
      Dir files
        ((fix each (ds : list (string * tree)) :=
            match ds with
            | [] => []
            | (d, sub) :: more =>
                if existsb (String.eqb d) exclude_dirs then each more
                else (d, prune exclude_dirs sub) :: each more
            end) dirs)
  end.

(** The names of the directories of a tree, below its root. *)
Fixpoint dir_names (t : tree) : list string :=
  match t with
  | Dir _ dirs =>
      (fix each (ds : list (string * tree)) :=
         match ds with
         | [] => []
         | (d, sub) :: more => (d :: dir_names sub ++ each more)%list
         end) dirs
  end.

(** What [rename_files] does with one file when it is not a dry run: the
    file is renamed inside its directory when the substitution changes its
    name. *)
Definition rename_event (needle_variations replacement_variations : dict)
    (f : string * string * string) : list event :=
  let '(root, filename, _) := f in
  match replace_text_in_filename filename
          needle_variations replacement_variations with
  | Raise _ => []
  | Ok new_filename =>
      if new_filename =? filename then []
      else [Rename (path_join root filename) (path_join root new_filename)]
  end.

(** What [replace_in_files] does with one file when it is not a dry run: a
    file with a text extension that no excluded pattern matches is written
    when the substitution changes its text. *)
Definition write_event (fnmatch : string -> string -> bool)
    (needle_variations replacement_variations : dict)
    (exclude_extensions : list string)
    (f : string * string * string) : list event :=
  let '(root, filename, content) := f in
  if is_text_file_by_ext filename
     && negb (existsb (fun pat => fnmatch filename pat) exclude_extensions)
  then
    match replace_content content
            needle_variations replacement_variations with
    | Raise _ => []
    | Ok new_content =>
        if new_content =? content then []
        else [WriteFile (path_join root filename) new_content]
    end
  else [].

(** ** Properties *)

(** *** Strings *)

Ltac ascii_cases c :=
  destruct c as [[] [] [] [] [] [] [] []]; try reflexivity; try discriminate.

Lemma append_nil_r (s : string) : s ++ "" = s.
Proof. induction s as [|c s IH]; simpl; congruence. Qed.

Lemma append_assoc (a b c : string) : (a ++ b) ++ c = a ++ b ++ c.
Proof. induction a as [|x a IH]; simpl; congruence. Qed.

Lemma prefix_nil (s : string) : prefix "" s = true.
Proof. now destruct s. Qed.

Lemma prefix_cons (a b : ascii) (p s : string) :
  prefix (String a p) (String b s) = Ascii.eqb a b && prefix p s.
Proof.
  simpl. destruct (ascii_dec a b) as [->|Hne].
  - now rewrite Ascii.eqb_refl.
  - apply Ascii.eqb_neq in Hne. now rewrite Hne.
Qed.

Lemma prefix_append (p r : string) : prefix p (p ++ r) = true.
Proof.
  induction p as [|a p IH]; [apply prefix_nil|].
  change ((String a p) ++ r) with (String a (p ++ r)).
  now rewrite prefix_cons, Ascii.eqb_refl.
Qed.

Lemma prefix_split (p s : string) :
  prefix p s = true -> exists r, s = p ++ r.
Proof.
  revert s. induction p as [|a p IH]; intros s H.
  - now exists s.
  - destruct s as [|b s]; [discriminate|].
    rewrite prefix_cons in H. apply andb_prop in H as [Hab Hp].
    apply Ascii.eqb_eq in Hab as ->.
    destruct (IH _ Hp) as [r ->]. now exists r.
Qed.

Lemma contains_unfold (n h : string) :
  contains n h =
  prefix n h || match h with
                | EmptyString => false
                | String _ r => contains n r
                end.
Proof. destruct h; reflexivity. Qed.

Lemma contains_Substring (n h : string) :
  contains n h = true <-> Substring n h.
Proof.
  split.
  - induction h as [|c h IH]; rewrite contains_unfold; intros H;
      apply orb_prop in H as [H|H]; try discriminate.
    + apply prefix_split in H as [r ->]. now exists "", r.
    + apply prefix_split in H as [r ->]. now exists "", r.
    + destruct (IH H) as (pre & post & ->). now exists (String c pre), post.
  - intros (pre & post & ->). induction pre as [|c pre IH].
    + rewrite contains_unfold. simpl. now rewrite prefix_append.
    + change (String c pre ++ n ++ post) with (String c (pre ++ n ++ post)).
      rewrite contains_unfold, IH. apply orb_true_r.
Qed.

Lemma not_contains_Substring (n h : string) :
  contains n h = false <-> ~ Substring n h.
Proof.
  rewrite <- contains_Substring. destruct (contains n h); split; intros H;
    try discriminate; try reflexivity; now exfalso.
Qed.

Lemma map_chars_append (f : ascii -> ascii) (a b : string) :
  map_chars f (a ++ b) = map_chars f a ++ map_chars f b.
Proof. induction a as [|c a IH]; simpl; congruence. Qed.

(** Replacing a character by a character is a map over the string. *)
Lemma replace_char (a b : ascii) (s : string) :
  replace s (String a "") (String b "") =
  map_chars (fun c => if Ascii.eqb c a then b else c) s.
Proof.
  unfold replace. induction s as [|c s IH]; [reflexivity|].
  cbn [replace_from map_chars].
  rewrite prefix_cons, prefix_nil, andb_true_r, Ascii.eqb_sym.
  destruct (Ascii.eqb c a); simpl; now rewrite IH.
Qed.

(** Without an occurrence of a non-empty [old], [replace] changes nothing. *)
Lemma replace_from_absent (old new s : string) :
  contains old s = false -> replace_from old new 0 s = s.
Proof.
  induction s as [|c s IH]; [reflexivity|].
  rewrite contains_unfold. intros H. apply orb_false_elim in H as [Hp Hc].
  cbn [replace_from]. rewrite Hp, (IH Hc). reflexivity.
Qed.

Lemma replace_absent (s old new : string) :
  ~ Substring old s -> replace s old new = s.
Proof.
  intros H. apply not_contains_Substring in H.
  destruct old as [|a old].
  - rewrite contains_unfold, prefix_nil in H. discriminate.
  - now apply replace_from_absent.
Qed.

(** The scan of [replace], for a non-empty [old]: an occurrence at the front
    is replaced and the scan resumes after it; otherwise the first character
    is kept. *)
Lemma replace_from_skip (old new p r : string) :
  replace_from old new (length p) (p ++ r) = replace_from old new 0 r.
Proof. induction p as [|c p IH]; simpl; auto. Qed.

Lemma replace_occurrence (a : ascii) (o new s : string) :
  replace (String a o ++ s) (String a o) new
  = new ++ replace s (String a o) new.
Proof.
  unfold replace. change (String a o ++ s) with (String a (o ++ s)).
  cbn [replace_from].
  change (String a (o ++ s)) with (String a o ++ s) at 1.
  rewrite prefix_append.
  assert (E : length (String a o) - 1 = length o) by (simpl; lia).
  now rewrite E, replace_from_skip.
Qed.

Lemma replace_no_occurrence (c : ascii) (s old new : string) :
  old <> "" -> prefix old (String c s) = false ->
  replace (String c s) old new = String c (replace s old new).
Proof.
  intros Hne Hp. destruct old as [|a o]; [contradiction|].
  unfold replace. cbn [replace_from]. now rewrite Hp.
Qed.

(** *** Dictionaries *)

Lemma dict_get_key (d : dict) (k : string) :
  In k (map fst d) -> exists v, dict_get d k = Some v.
Proof.
  induction d as [|[k' v'] d IH]; simpl; [tauto|].
  intros [->|H].
  - rewrite String.eqb_refl. now exists v'.
  - destruct (k' =? k); [now exists v'|auto].
Qed.

(** A dictionary with the five keys in order is a variation set. *)
Lemma keys_variation_set (d : dict) :
  map fst d = case_keys ->
  exists o c p s k, d = variation_set o c p s k.
Proof.
  unfold case_keys, variation_set. intros H.
  do 5 (destruct d as [|[? ?] d]; [discriminate|]).
  destruct d; [|discriminate].
  simpl in H. injection H as -> -> -> -> ->. now eexists _, _, _, _, _.
Qed.

(** *** Filename substitution *)

Lemma replace_first_at (name : string) (rv : dict) :
  forall (nv : dict) (i : nat) (k n : string),
    nth_error nv i = Some (k, n) ->
    contains n name = true ->
    (forall j k' m, j < i -> nth_error nv j = Some (k', m) ->
                    contains m name = false) ->
    replace_first name nv rv =
    match dict_get rv k with
    | Some r => Ok (replace name n r)
    | None => Raise (KeyError k)
    end.
Proof.
  induction nv as [|[k0 n0] nv IH]; intros i k n Hi Hn Hbefore.
  - now destruct i.
  - destruct i as [|i]; simpl in Hi.
    + injection Hi as -> ->. simpl. now rewrite Hn.
    + simpl. rewrite (Hbefore 0 k0 n0); [|lia|reflexivity].
      apply (IH i); auto.
      intros j k' m Hj Hnth. apply (Hbefore (S j) k' m); [lia|exact Hnth].
Qed.

Lemma replace_first_none (name : string) (rv nv : dict) :
  (forall k v, In (k, v) nv -> contains v name = false) ->
  replace_first name nv rv = Ok name.
Proof.
  induction nv as [|[k0 n0] nv IH]; intros H; [reflexivity|].
  simpl. rewrite (H k0 n0); [|now left].
  apply IH. intros k v Hin. apply (H k v). now right.
Qed.

(** C1.  Filename substitution is first-match-wins.  The needle variants are
    examined in the order of the keys original, camelCase, PascalCase,
    snake_case, kebab-case; when the variant of the key at position [i] is a
    substring of the name and no variant of an earlier key is, the result is
    the name with Python's [replace] of that variant by the replacement of
    the same key, and nothing else.  In particular
    example-example-file.txt becomes sample-sample-file.txt. *)
Theorem filename_first_match_wins :
  (forall (name : string) (nv rv : dict),
     map fst nv = case_keys ->
     map fst rv = case_keys ->
     forall (i : nat) (k n : string),
       nth_error nv i = Some (k, n) ->
       Substring n name ->
       (forall j k' m, j < i -> nth_error nv j = Some (k', m) ->
                       ~ Substring m name) ->
       nth_error case_keys i = Some k /\
       exists r,
         dict_get rv k = Some r /\
         replace_text_in_filename name nv rv = Ok (replace name n r))
  /\ replace_text_in_filename "example-example-file.txt"
       (generate_all_case_variations "example")
       (generate_all_case_variations "sample")
     = Ok "sample-sample-file.txt".
Proof.
  split; [|reflexivity].
  intros name nv rv Hnv Hrv i k n Hi Hsub Hbefore.
  assert (Hk : nth_error case_keys i = Some k).
  { rewrite <- Hnv, nth_error_map, Hi. reflexivity. }
  split; [exact Hk|].
  destruct (dict_get_key rv k) as [r Hr].
  { rewrite Hrv. eapply nth_error_In, Hk. }
  exists r. split; [exact Hr|].
  unfold replace_text_in_filename.
  rewrite (replace_first_at name rv nv i k n Hi).
  - now rewrite Hr.
  - now apply contains_Substring.
  - intros j k' m Hj Hnth. apply not_contains_Substring. eauto.
Qed.

Lemma filename_first_match_wins_witness :
  exists r,
    dict_get (generate_all_case_variations "sample") "PascalCase" = Some r /\
    replace_text_in_filename "ThisIsAnExampleFile.txt"
      (generate_all_case_variations "example")
      (generate_all_case_variations "sample")
    = Ok (replace "ThisIsAnExampleFile.txt" "Example" r).
Proof.
  apply (proj1 filename_first_match_wins "ThisIsAnExampleFile.txt"
           (generate_all_case_variations "example")
           (generate_all_case_variations "sample")
           eq_refl eq_refl 2 "PascalCase" "Example" eq_refl).
  - apply contains_Substring. reflexivity.
  - intros j k' m Hj Hnth. apply not_contains_Substring.
    destruct j as [|[|j]]; [| |lia]; injection Hnth as <- <-; reflexivity.
Defined.

(** C10.  When no needle variant is a substring of the name, the name comes
    back unchanged, whatever the two dictionaries are. *)
Theorem filename_no_match_identity (name : string) (nv rv : dict) :
  (forall k v, In (k, v) nv -> ~ Substring v name) ->
  replace_text_in_filename name nv rv = Ok name.
Proof.
  intros H. apply replace_first_none.
  intros k v Hin. apply not_contains_Substring. eauto.
Qed.

Lemma filename_no_match_identity_witness :
  replace_text_in_filename "this-file-does-not-need-change.txt"
    (generate_all_case_variations "example")
    (generate_all_case_variations "sample")
  = Ok "this-file-does-not-need-change.txt".
Proof.
  apply (filename_no_match_identity "this-file-does-not-need-change.txt"
           (generate_all_case_variations "example")
           (generate_all_case_variations "sample")).
  intros k v Hin. apply not_contains_Substring.
  repeat (destruct Hin as [Hin|Hin]; [injection Hin as <- <-; reflexivity|]).
  destruct Hin.
Defined.

(** *** Content substitution *)

Lemma content_step_dec (content cur n r : string) :
  ContentStep content cur n r
    (if contains n content then replace cur n r else cur).
Proof.
  destruct (contains n content) eqn:E.
  - left. split; [now apply contains_Substring|reflexivity].
  - right. split; [now apply not_contains_Substring|reflexivity].
Qed.

(** On two variation sets the content loop never raises, and its five
    iterations can be written out. *)
Lemma replace_content_unrolled
    (content n0 n1 n2 n3 n4 r0 r1 r2 r3 r4 : string) :
  replace_content content
    (variation_set n0 n1 n2 n3 n4) (variation_set r0 r1 r2 r3 r4)
  = let pick cur n r := if contains n content then replace cur n r else cur in
    Ok (pick (pick (pick (pick (pick content n0 r0) n1 r1) n2 r2) n3 r3)
          n4 r4).
Proof.
  unfold replace_content, variation_set.
  cbn [replace_each dict_get String.eqb Ascii.eqb Bool.eqb].
  destruct (contains n0 content), (contains n1 content),
    (contains n2 content), (contains n3 content), (contains n4 content);
    reflexivity.
Qed.

(** C2, refuted as worded.  With needle fooBar and replacement foo_bar_x the
    program turns the content fooBar into foo_bar_x: the snake_case variant
    foo_bar does not occur in the text read from the file, so its key is
    skipped, although it occurs in the text as modified by the first key.
    Testing each key on the modified text, as the sentence says, gives
    foo_bar_x_x. *)
Lemma content_test_reads_original_text :
  replace_content "fooBar"
    (generate_all_case_variations "fooBar")
    (generate_all_case_variations "foo_bar_x") = Ok "foo_bar_x"
  /\ substituteInContent_spec "fooBar"
       (generate_all_case_variations "fooBar")
       (generate_all_case_variations "foo_bar_x") = Ok "foo_bar_x_x"
  /\ replace_content "fooBar"
       (generate_all_case_variations "fooBar")
       (generate_all_case_variations "foo_bar_x")
     <> substituteInContent_spec "fooBar"
          (generate_all_case_variations "fooBar")
          (generate_all_case_variations "foo_bar_x").
Proof.
  split; [reflexivity|]. split; [reflexivity|]. discriminate.
Qed.

(** C2, amended.  Content substitution does not short-circuit: the five keys
    are visited in order, and for each key whose needle variant occurs in the
    content read from the file, all occurrences of that variant in the
    content as modified so far are replaced by the replacement of the same
    key; a key whose variant does not occur in the content read from the
    file changes nothing.  With needle testString and replacement
    demoExample, both the camelCase and the snake_case occurrence of a
    content are replaced in one pass. *)
Theorem content_every_key :
  (forall content n0 n1 n2 n3 n4 r0 r1 r2 r3 r4 : string,
     exists c1 c2 c3 c4 c5 : string,
       ContentStep content content n0 r0 c1 /\
       ContentStep content c1 n1 r1 c2 /\
       ContentStep content c2 n2 r2 c3 /\
       ContentStep content c3 n3 r3 c4 /\
       ContentStep content c4 n4 r4 c5 /\
       replace_content content
         (variation_set n0 n1 n2 n3 n4) (variation_set r0 r1 r2 r3 r4)
       = Ok c5)
  /\ replace_content "testString and test_string"
       (generate_all_case_variations "testString")
       (generate_all_case_variations "demoExample")
     = Ok "demoExample and demo_example"
  /\ replace_content "test_string, TestString, test-string, testString"
       (generate_all_case_variations "testString")
       (generate_all_case_variations "demoExample")
     = Ok "demo_example, DemoExample, demo-example, demoExample".
Proof.
  split; [|split; reflexivity].
  intros content n0 n1 n2 n3 n4 r0 r1 r2 r3 r4.
  eexists _, _, _, _, _.
  do 5 (split; [apply content_step_dec|]).
  apply replace_content_unrolled.
Qed.

(** *** The empty needle *)

(** C3, refuted as worded.  The variation set of the empty needle has an
    empty original entry, and neither substitution raises an error on it:
    the filename abc becomes xaxbxcx with the replacement x. *)
Lemma empty_needle_substitutes :
  dict_get (generate_all_case_variations "") "original" = Some ""
  /\ replace_text_in_filename "abc"
       (generate_all_case_variations "") (generate_all_case_variations "x")
     = Ok "xaxbxcx"
  /\ raises (replace_content "abc"
               (generate_all_case_variations "")
               (generate_all_case_variations "x")) = false.
Proof. repeat split. Qed.

(** C3, amended.  The empty needle is rejected by the callers, not by the
    substitutions: on a directory that is not empty, [rename_files] and
    [replace_in_files] raise the error of the empty needle before any prompt,
    any variation set and any file, for every replacement and every option.
    The substitutions themselves have no such check: with an empty original
    needle variant [replace_text_in_filename] returns the name with the
    original replacement variant put before every character and at the end,
    and the content loop raises nothing. *)
Theorem empty_needle_rejected_by_callers :
  forall (fnmatch : string -> string -> bool) (directory : string) (t : tree)
         (replacement : string) (exclude_dirs exclude_extensions : list string)
         (dry_run ask : bool) (stdin : list string),
    listdir t <> [] ->
    rename_files directory (Some t) "" replacement exclude_dirs
      dry_run ask stdin = ([], Some needle_error)
    /\ replace_in_files fnmatch directory (Some t) "" replacement
         exclude_dirs exclude_extensions dry_run ask stdin
       = ([], Some needle_error)
    /\ (forall name c p s k r0 r1 r2 r3 r4 : string,
          replace_text_in_filename name
            (variation_set "" c p s k) (variation_set r0 r1 r2 r3 r4)
          = Ok (intersperse r0 name))
    /\ (forall content c p s k r0 r1 r2 r3 r4 : string,
          raises (replace_content content
                    (variation_set "" c p s k)
                    (variation_set r0 r1 r2 r3 r4)) = false).
Proof.
  intros fnmatch directory t replacement exclude_dirs exclude_extensions
    dry_run ask stdin Hdir.
  repeat split.
  - unfold rename_files. destruct (listdir t); [contradiction|reflexivity].
  - unfold replace_in_files. destruct (listdir t); [contradiction|reflexivity].
  - intros name c p s k r0 r1 r2 r3 r4.
    unfold replace_text_in_filename, variation_set. cbn [replace_first].
    rewrite contains_unfold, prefix_nil. reflexivity.
  - intros content c p s k r0 r1 r2 r3 r4.
    now rewrite replace_content_unrolled.
Qed.

Lemma empty_needle_rejected_by_callers_witness :
  rename_files "project" (Some (Dir [("example.txt", "an example")] []))
    "" "sample" [] false false [] = ([], Some needle_error).
Proof.
  apply (proj1 (empty_needle_rejected_by_callers (fun _ _ => false)
                  "project" (Dir [("example.txt", "an example")] [])
                  "sample" [] [] false false []
                  (fun H => eq_ind (listdir (Dir [("example.txt", "an example")] []))
                              (fun l => match l with [] => False | _ :: _ => True end)
                              I [] H))).
Defined.

(** *** Variation generator and converter *)

(** C7.  The variation set of a text has the five keys in order; its original
    entry is the text, its kebab-case entry the canonical form of the text,
    and its camelCase, PascalCase and snake_case entries the projections of
    that canonical form, which are also what [convert_string] returns for
    these targets. *)
Theorem variations_entries :
  (forall text : string,
     generate_all_case_variations text
     = variation_set text
         (to_camel_case (to_kebab_case text))
         (to_pascal_case (to_kebab_case text))
         (to_snake_case (to_kebab_case text))
         (to_kebab_case text)
     /\ map fst (generate_all_case_variations text) = case_keys
     /\ dict_get (generate_all_case_variations text) "original" = Some text
     /\ (forall to_case v,
           dict_get (generate_all_case_variations text) to_case = Some v ->
           to_case <> "original" ->
           convert_string text to_case = Ok v))
  /\ generate_all_case_variations "this-is-kebab-case"
     = [ ("original", "this-is-kebab-case");
         ("camelCase", "thisIsKebabCase");
         ("PascalCase", "ThisIsKebabCase");
         ("snake_case", "this_is_kebab_case");
         ("kebab-case", "this-is-kebab-case") ].
Proof.
  split; [|reflexivity].
  intros text. repeat split.
  intros to_case v Hget Hne.
  unfold generate_all_case_variations in Hget. cbn [dict_get] in Hget.
  unfold convert_string.
  destruct (String.eqb_spec "original" to_case) as [E|_]; [congruence|].
  rewrite (String.eqb_sym to_case "camelCase").
  destruct ("camelCase" =? to_case); [congruence|].
  rewrite (String.eqb_sym to_case "PascalCase").
  destruct ("PascalCase" =? to_case); [congruence|].
  rewrite (String.eqb_sym to_case "snake_case").
  destruct ("snake_case" =? to_case); [congruence|].
  rewrite (String.eqb_sym to_case "kebab-case").
  destruct ("kebab-case" =? to_case); [congruence|discriminate].
Qed.

Lemma variations_entries_witness :
  convert_string "thisIsCamelCase" "snake_case" = Ok "this_is_camel_case".
Proof.
  apply (proj2 (proj2 (proj2 (proj1 variations_entries "thisIsCamelCase")))
           "snake_case" "this_is_camel_case" eq_refl).
  discriminate.
Defined.

(** The target tags that [convert_string] accepts. *)
Lemma convert_string_cases (s to_case : string) :
  (In to_case ["camelCase"; "PascalCase"; "snake_case"; "kebab-case"; "other"]
   /\ exists r, convert_string s to_case = Ok r)
  \/ (~ In to_case
        ["camelCase"; "PascalCase"; "snake_case"; "kebab-case"; "other"]
      /\ convert_string s to_case
         = Raise (ValueError ("Unsupported target case: " ++ to_case))).
Proof.
  unfold convert_string.
  destruct (String.eqb_spec to_case "camelCase") as [->|H1];
    [left; split; [simpl; tauto|eexists; reflexivity]|].
  destruct (String.eqb_spec to_case "PascalCase") as [->|H2];
    [left; split; [simpl; tauto|eexists; reflexivity]|].
  destruct (String.eqb_spec to_case "snake_case") as [->|H3];
    [left; split; [simpl; tauto|eexists; reflexivity]|].
  destruct (String.eqb_spec to_case "kebab-case") as [->|H4];
    [left; split; [simpl; tauto|eexists; reflexivity]|].
  destruct (String.eqb_spec to_case "other") as [->|H5];
    [left; split; [simpl; tauto|eexists; reflexivity]|].
  right. split; [|reflexivity].
  simpl. intros [H|[H|[H|[H|[H|[]]]]]]; congruence.
Qed.

(** C8.  A target tag other than camelCase, PascalCase, snake_case,
    kebab-case and other makes [convert_string] raise the error of the
    unsupported target, for every string; the five tags raise nothing. *)
Theorem convert_unsupported_target (s to_case : string) :
  (~ In to_case ["camelCase"; "PascalCase"; "snake_case"; "kebab-case"; "other"]
   -> convert_string s to_case
      = Raise (ValueError ("Unsupported target case: " ++ to_case)))
  /\ (In to_case ["camelCase"; "PascalCase"; "snake_case"; "kebab-case"; "other"]
      -> exists r, convert_string s to_case = Ok r).
Proof.
  destruct (convert_string_cases s to_case) as [[Hin Hok]|[Hnin Herr]];
    split; intros H; auto; contradiction.
Qed.

Lemma convert_unsupported_target_witness :
  convert_string "someString" "unsupportedCase"
  = Raise (ValueError "Unsupported target case: unsupportedCase")
  /\ exists r, convert_string "someString" "other" = Ok r.
Proof.
  split.
  - apply (proj1 (convert_unsupported_target "someString" "unsupportedCase")).
    simpl. intros [H|[H|[H|[H|[H|[]]]]]]; discriminate H.
  - apply (proj2 (convert_unsupported_target "someString" "other")).
    simpl. do 4 right. left. reflexivity.
Defined.

(** *** Regular expressions: the matcher and the words of an expression *)

Lemma append_eq_nil (a b : string) : a ++ b = "" -> a = "" /\ b = "".
Proof. destruct a; simpl; intros H; [auto|discriminate]. Qed.

Lemma nullable_Matches (r : regex) : nullable r = true <-> Matches r "".
Proof.
  split.
  - induction r; simpl; intros H; try discriminate.
    + constructor.
    + apply andb_prop in H as [H1 H2].
      change "" with ("" ++ ""). constructor; auto.
    + apply orb_prop in H as [H|H]; [apply MAltL|apply MAltR]; auto.
    + constructor.
  - intros H. remember "" as e eqn:He.
    induction H; subst; simpl; try discriminate; auto.
    + apply append_eq_nil in He as [-> ->]. rewrite IHMatches1, IHMatches2; auto.
    + rewrite IHMatches; auto.
    + rewrite IHMatches; auto using orb_true_r.
Qed.

Lemma deriv_sound (c : ascii) (r : regex) :
  forall s, Matches (deriv c r) s -> Matches r (String c s).
Proof.
  induction r; simpl; intros s H.
  - inversion H.
  - inversion H.
  - destruct (p c) eqn:Hp; inversion H; subst. now constructor.
  - assert (Hcat : forall s, Matches (Cat (deriv c r1) r2) s ->
                             Matches (Cat r1 r2) (String c s)).
    { intros s0 H0. inversion H0; subst.
      change (String c (s1 ++ s2)) with (String c s1 ++ s2).
      constructor; auto. }
    destruct (nullable r1) eqn:Hn; [|auto].
    inversion H; subst; [auto|].
    change (String c s) with ("" ++ String c s).
    constructor; [now apply nullable_Matches|auto].
  - inversion H; subst; [apply MAltL|apply MAltR]; auto.
  - inversion H; subst.
    change (String c (s1 ++ s2)) with (String c s1 ++ s2).
    constructor; auto.
Qed.

Lemma deriv_complete (c : ascii) (r : regex) (w : string) :
  Matches r w -> forall s, w = String c s -> Matches (deriv c r) s.
Proof.
  induction 1 as [ | p c0 Hp | r1 r2 s1 s2 H1 IH1 H2 IH2 | r1 r2 s0 H0 IH0
                 | r1 r2 s0 H0 IH0 | r0 | r0 s1 s2 H1 IH1 H2 IH2 ];
    intros s E; simpl.
  - discriminate.
  - injection E as -> <-. rewrite Hp. constructor.
  - destruct s1 as [|c1 s1]; simpl in E.
    + apply nullable_Matches in H1. rewrite H1. apply MAltR. auto.
    + injection E as -> <-.
      assert (Hcat : Matches (Cat (deriv c r1) r2) (s1 ++ s2))
        by (constructor; auto).
      destruct (nullable r1); [now apply MAltL|exact Hcat].
  - apply MAltL. auto.
  - apply MAltR. auto.
  - discriminate.
  - destruct s1 as [|c1 s1]; simpl in E.
    + apply (IH2 s E).
    + injection E as -> <-. constructor; auto.
Qed.

(** The matcher decides membership in the words of the expression. *)
Lemma fullmatch_Matches (s : string) :
  forall r, fullmatch r s = true <-> Matches r s.
Proof.
  induction s as [|c s IH]; intros r; simpl.
  - apply nullable_Matches.
  - rewrite IH. split.
    + apply deriv_sound.
    + intros H. now apply (deriv_complete c r (String c s)).
Qed.

Lemma Matches_star_class (p : ascii -> bool) (s : string) :
  all_chars p s = true -> Matches (Star (Class p)) s.
Proof.
  induction s as [|c s IH]; simpl; intros H; [constructor|].
  apply andb_prop in H as [Hc Hs].
  change (String c s) with (String c "" ++ s).
  constructor; [now constructor|auto].
Qed.

Lemma Matches_plus_class (p : ascii -> bool) (c : ascii) (s : string) :
  all_chars p (String c s) = true -> Matches (Plus (Class p)) (String c s).
Proof.
  simpl. intros H. apply andb_prop in H as [Hc Hs].
  change (String c s) with (String c "" ++ s).
  constructor; [now constructor|now apply Matches_star_class].
Qed.

(** A word of [c r] begins with a character of the class [c]. *)
Lemma Matches_class_first (p : ascii -> bool) (r : regex) (s : string) :
  Matches (Cat (Class p) r) s ->
  exists c s', s = String c s' /\ p c = true.
Proof.
  intros H. inversion H as [ | | r1 r2 s1 s2 H1 H2 | | | | ]; subst.
  inversion H1; subst. simpl. eauto.
Qed.

(** A string whose characters are all lowercase letters or digits does not
    end with a newline. *)
Lemma chomp_lower_or_digit (s : string) :
  all_chars lower_or_digit s = true -> chomp s = None.
Proof.
  induction s as [|c s IH]; [reflexivity|].
  simpl. intros H. apply andb_prop in H as [Hc Hs].
  destruct s as [|c' s].
  - destruct (Ascii.eqb_spec c "010") as [->|_]; [discriminate|reflexivity].
  - now rewrite (IH Hs).
Qed.

Lemma snake_lower_or_digit (c : ascii) (s : string) :
  all_chars lower_or_digit (String c s) = true ->
  match_anchored snake_re (String c s) = true.
Proof.
  intros H. unfold match_anchored.
  apply orb_true_intro. left. apply fullmatch_Matches.
  rewrite <- (append_nil_r (String c s)).
  constructor; [now apply Matches_plus_class|constructor].
Qed.

Lemma camel_lower_or_digit (c : ascii) (s : string) :
  all_chars lower_or_digit (String c s) = true ->
  match_anchored camel_re (String c s) = is_lower c.
Proof.
  intros H. unfold match_anchored.
  rewrite (chomp_lower_or_digit _ H), orb_false_r.
  destruct (is_lower c) eqn:Hc.
  - apply fullmatch_Matches.
    change (String c s) with (String c "" ++ s).
    constructor; [now constructor|].
    apply Matches_star_class.
    simpl in H. apply andb_prop in H as [_ Hs]. clear Hc.
    induction s as [|c' s IH]; [reflexivity|].
    simpl in *. apply andb_prop in Hs as [Hc' Hs].
    rewrite (IH Hs), andb_true_r.
    unfold alnum, lower_or_digit in *.
    apply orb_prop in Hc' as [->| ->]; auto using orb_true_r.
  - destruct (fullmatch camel_re (String c s)) eqn:Hm; [|reflexivity].
    apply fullmatch_Matches, Matches_class_first in Hm
      as (c0 & s0 & E & Hc0).
    injection E as <- <-. congruence.
Qed.

(** *** Case classifier *)

(** C5, refuted as worded.  The string 123 is made only of lowercase letters
    and digits and the camelCase pattern does not match it; the empty string
    is matched by no pattern and classifies as other. *)
Lemma lower_or_digit_string_without_camel_match :
  (all_chars lower_or_digit "123" = true
   /\ detect_case_type "123" = "snake_case"
   /\ match_anchored camel_re "123" = false)
  /\ (all_chars lower_or_digit "" = true
      /\ detect_case_type "" = "other").
Proof. repeat split. Qed.

(** C5, amended.  The classifier tries the patterns in the order snake_case,
    kebab-case, camelCase, PascalCase and returns the first that matches.
    Consequently every string of at least one character made only of
    lowercase letters and digits classifies as snake_case, and the camelCase
    pattern matches it as well exactly when its first character is a
    letter.  In particular example is snake_case, isJSON is camelCase and
    XMLHttpRequest is PascalCase. *)
Theorem classifier_priority :
  (forall s : string,
     detect_case_type s =
     if match_anchored snake_re s then "snake_case"
     else if match_anchored kebab_re s then "kebab-case"
     else if match_anchored camel_re s then "camelCase"
     else if match_anchored pascal_re s then "PascalCase"
     else "other")
  /\ (forall (c : ascii) (s : string),
        all_chars lower_or_digit (String c s) = true ->
        detect_case_type (String c s) = "snake_case"
        /\ match_anchored camel_re (String c s) = is_lower c)
  /\ detect_case_type "example" = "snake_case"
  /\ detect_case_type "isJSON" = "camelCase"
  /\ detect_case_type "XMLHttpRequest" = "PascalCase".
Proof.
  split; [reflexivity|]. split; [|repeat split].
  intros c s H. split.
  - unfold detect_case_type, patterns. cbn [first_match].
    now rewrite snake_lower_or_digit.
  - now apply camel_lower_or_digit.
Qed.

Lemma classifier_priority_witness :
  detect_case_type "example1" = "snake_case"
  /\ match_anchored camel_re "example1" = is_lower "e".
Proof.
  apply (proj1 (proj2 classifier_priority) "e"%char "xample1"). reflexivity.
Defined.

(** Away from a final newline the classifier answers other for every string
    that none of the four expressions matches as a whole. *)
Lemma detect_other_without_final_newline (s : string) :
  chomp s = None ->
  fullmatch snake_re s = false -> fullmatch kebab_re s = false ->
  fullmatch camel_re s = false -> fullmatch pascal_re s = false ->
  detect_case_type s = "other".
Proof.
  intros Hc H1 H2 H3 H4.
  unfold detect_case_type, patterns. cbn [first_match].
  unfold match_anchored. now rewrite Hc, H1, H2, H3, H4.
Qed.

(** C6, evaluated where the program departs from it.  The string made of
    example and a final newline is matched as a whole by none of the four
    expressions, and the classifier answers snake_case, not other: [$] also
    holds just before a final newline. *)
Theorem final_newline_is_classified :
  fullmatch snake_re ("example" ++ String "010" "") = false
  /\ fullmatch kebab_re ("example" ++ String "010" "") = false
  /\ fullmatch camel_re ("example" ++ String "010" "") = false
  /\ fullmatch pascal_re ("example" ++ String "010" "") = false
  /\ detect_case_type ("example" ++ String "010" "") = "snake_case".
Proof. repeat split. Qed.

(** *** Canonical kebab form *)

Lemma replace_separators (s : string) :
  replace (replace s "_" "-") " " "-" = kebab_step_a s.
Proof.
  rewrite !replace_char. unfold kebab_step_a, separator_to_hyphen.
  induction s as [|c s IH]; [reflexivity|].
  cbn [map_chars]. rewrite IH. f_equal.
  destruct (Ascii.eqb_spec c "_") as [->|_]; [reflexivity|].
  reflexivity.
Qed.





(** The output of [re.sub(r'-+', '-', s)] has no two hyphens in a row. *)
Lemma sub_hyphen_runs_single (s : string) :
  forall in_run : bool,
    contains "--" (sub_hyphen_runs in_run s) = false
    /\ (in_run = true -> prefix "-" (sub_hyphen_runs in_run s) = false).
Proof.
  induction s as [|c s IH]; intros in_run; [split; reflexivity|].
  cbn [sub_hyphen_runs].
  destruct (Ascii.eqb_spec c "-") as [->|Hne].
  - destruct in_run.
    + apply IH.
    + split; [|discriminate].
      rewrite contains_unfold, prefix_cons, Ascii.eqb_refl, andb_true_l.
      destruct (IH true) as [-> ->]; reflexivity.
  - assert (E : Ascii.eqb "-" c = false)
      by (apply Ascii.eqb_neq; congruence).
    split.
    + rewrite contains_unfold, prefix_cons, E. apply IH.
    + intros _. now rewrite prefix_cons, E.
Qed.

Lemma to_kebab_case_single_hyphens (s : string) :
  contains "--" (to_kebab_case s) = false.
Proof. unfold to_kebab_case. apply sub_hyphen_runs_single. Qed.

Lemma endswith_unfold (s t : string) :
  endswith s t =
  (s =? t) || match s with
              | EmptyString => false
              | String _ r => endswith r t
              end.
Proof. destruct s; reflexivity. Qed.

Lemma endswith_append (q t : string) : endswith (q ++ t) t = true.
Proof.
  induction q as [|c q IH].
  - simpl. now rewrite endswith_unfold, String.eqb_refl.
  - change (String c q ++ t) with (String c (q ++ t)).
    rewrite endswith_unfold, IH. apply orb_true_r.
Qed.

Lemma endswith_split (s t : string) :
  endswith s t = true -> exists q, s = q ++ t.
Proof.
  induction s as [|c s IH]; rewrite endswith_unfold; intros H;
    apply orb_prop in H as [H|H]; try discriminate.
  - apply String.eqb_eq in H as <-. now exists "".
  - apply String.eqb_eq in H as <-. now exists "".
  - destruct (IH H) as [q ->]. now exists (String c q).
Qed.







(** *** Round trip through camelCase *)

Lemma all_chars_map (p q : ascii -> bool) (f : ascii -> ascii) (s : string) :
  (forall c, q c = true -> p (f c) = true) ->
  all_chars q s = true -> all_chars p (map_chars f s) = true.
Proof.
  intros Hf. induction s as [|c s IH]; [reflexivity|].
  simpl. intros H. apply andb_prop in H as [Hc Hs].
  now rewrite (Hf c Hc), (IH Hs).
Qed.

Lemma all_chars_sub_before_upper (p : ascii -> bool) (s : string) :
  p "-"%char = true ->
  forall start, all_chars p s = true ->
                all_chars p (sub_before_upper start s) = true.
Proof.
  intros Hp. induction s as [|c s IH]; intros start; [reflexivity|].
  simpl. intros H. apply andb_prop in H as [Hc Hs].
  destruct (negb start && is_upper c); simpl;
    now rewrite ?Hp, Hc, (IH false Hs).
Qed.

Lemma all_chars_sub_hyphen_runs (p : ascii -> bool) (s : string) :
  forall in_run, all_chars p s = true ->
                 all_chars p (sub_hyphen_runs in_run s) = true.
Proof.
  induction s as [|c s IH]; intros in_run; [reflexivity|].
  simpl. intros H. apply andb_prop in H as [Hc Hs].
  destruct (Ascii.eqb_spec c "-") as [->|_].
  - destruct in_run; simpl; now rewrite ?Hc, (IH true Hs).
  - simpl. now rewrite Hc, (IH false Hs).
Qed.

Lemma separator_to_hyphen_lower_kebab (c : ascii) :
  kebab_char (lower_char (separator_to_hyphen c)) = true.
Proof. ascii_cases c. Qed.

Lemma sub_before_upper_lower_kebab (s : string) :
  all_chars (fun c => kebab_char (lower_char c)) s = true ->
  all_chars kebab_char (lower s) = true.
Proof. apply all_chars_map. auto. Qed.

(** The canonical kebab form has no uppercase letter, underscore or space. *)
Lemma to_kebab_case_chars (s : string) :
  all_chars kebab_char (to_kebab_case s) = true.
Proof.
  unfold to_kebab_case. rewrite replace_separators.
  apply all_chars_sub_hyphen_runs, sub_before_upper_lower_kebab.
  apply all_chars_sub_before_upper; [reflexivity|].
  unfold kebab_step_a.
  apply (all_chars_map _ (fun _ => true)).
  - intros c _. apply separator_to_hyphen_lower_kebab.
  - clear. induction s as [|c s IH]; [reflexivity|exact IH].
Qed.

(** A string without two hyphens in a row is left as it is by the collapse. *)
Lemma sub_hyphen_runs_fixed (x : string) :
  contains "--" x = false ->
  sub_hyphen_runs false x = x
  /\ (prefix "-" x = false -> sub_hyphen_runs true x = x).
Proof.
  induction x as [|c x IH]; [split; reflexivity|].
  rewrite contains_unfold, prefix_cons. intros H.
  apply orb_false_elim in H as [Hp Hc]. destruct (IH Hc) as [IH1 IH2].
  cbn [sub_hyphen_runs].
  destruct (Ascii.eqb_spec c "-") as [->|Hne].
  - rewrite Ascii.eqb_refl, andb_true_l in Hp. split.
    + now rewrite (IH2 Hp).
    + rewrite prefix_cons, Ascii.eqb_refl, prefix_nil. discriminate.
  - rewrite IH1. split; reflexivity.
Qed.

(** The two projections, character by character. *)
Lemma to_camel_case_cons (c : ascii) (r : string) :
  to_camel_case (String c r) =
  if Ascii.eqb c "-" then to_pascal_case r
  else String (lower_char c) (to_camel_case r).
Proof.
  unfold to_camel_case, to_pascal_case, split. cbn [split_parts].
  destruct (split_parts "-" r) as [w ws].
  destruct (Ascii.eqb c "-"); reflexivity.
Qed.

Lemma to_pascal_case_cons (c : ascii) (r : string) :
  to_pascal_case (String c r) =
  if Ascii.eqb c "-" then to_pascal_case r
  else String (upper_char c) (to_camel_case r).
Proof.
  unfold to_camel_case, to_pascal_case, split. cbn [split_parts].
  destruct (split_parts "-" r) as [w ws].
  destruct (Ascii.eqb c "-"); reflexivity.
Qed.

Lemma kebab_char_fixed (c : ascii) :
  kebab_char c = true ->
  lower_char c = c /\ separator_to_hyphen c = c /\ is_upper c = false.
Proof.
  destruct c as [[] [] [] [] [] [] [] []]; vm_compute; intros H;
    try discriminate H; repeat split.
Qed.

Lemma kebab_letter_upper (c : ascii) :
  kebab_char c = true -> is_letter c = true ->
  separator_to_hyphen (upper_char c) = upper_char c
  /\ is_upper (upper_char c) = true
  /\ lower_char (upper_char c) = c.
Proof.
  destruct c as [[] [] [] [] [] [] [] []]; vm_compute; intros H1 H2;
    try discriminate H1; try discriminate H2; repeat split.
Qed.

Lemma hyphenate_cons (start : bool) (c : ascii) (x : string) :
  hyphenate start (String c x) =
  if negb start && is_upper (separator_to_hyphen c)
  then String "-" (String (lower_char (separator_to_hyphen c))
                     (hyphenate false x))
  else String (lower_char (separator_to_hyphen c)) (hyphenate false x).
Proof.
  unfold hyphenate, kebab_step_a, lower. cbn [map_chars sub_before_upper].
  destruct (negb start && is_upper (separator_to_hyphen c)); reflexivity.
Qed.

(** Re-deriving the kebab form from a projection, before the collapse. *)
Lemma hyphenate_projections (k : string) :
  all_chars kebab_char k = true ->
  forallb begins_with_letter (snd (split_parts "-" k)) = true ->
  hyphenate false (to_camel_case k) = k
  /\ (begins_with_letter (fst (split_parts "-" k)) = true ->
      hyphenate false (to_pascal_case k) = String "-" k
      /\ hyphenate true (to_camel_case k) = k).
Proof.
  induction k as [|c k IH]; [intros _ _; split; [reflexivity|discriminate]|].
  cbn [all_chars split_parts]. intros Hall Htokens.
  apply andb_prop in Hall as [Hc Hk].
  rewrite to_camel_case_cons, to_pascal_case_cons.
  destruct (split_parts "-" k) as [w ws] eqn:Hsplit.
  destruct (Ascii.eqb_spec c "-") as [->|Hne].
  - cbn [snd fst forallb] in *.
    apply andb_prop in Htokens as [Hw Hws].
    destruct (IH Hk Hws) as [_ IH2]. destruct (IH2 Hw) as [IHp _].
    split; [exact IHp|discriminate].
  - cbn [snd fst begins_with_letter] in *.
    destruct (IH Hk Htokens) as [IHc _].
    destruct (kebab_char_fixed c Hc) as (Hl & Hs & Hu).
    assert (Hcamel : forall start,
               hyphenate start (String (lower_char c) (to_camel_case k))
               = String c k).
    { intros start. rewrite hyphenate_cons, Hl, Hs, Hu, andb_false_r, Hl.
      now rewrite IHc. }
    split; [apply Hcamel|].
    intros Hletter.
    destruct (kebab_letter_upper c Hc Hletter) as (Hs' & Hu' & Hl').
    split; [|apply Hcamel].
    rewrite hyphenate_cons, Hs', Hu', Hl'. cbn [negb andb].
    now rewrite IHc.
Qed.



(** ** Further properties of the converters *)

Lemma all_chars_impl (p q : ascii -> bool) (s : string) :
  (forall c, p c = true -> q c = true) ->
  all_chars p s = true -> all_chars q s = true.
Proof.
  intros Hpq. induction s as [|c s IH]; [reflexivity|].
  simpl. intros H. apply andb_prop in H as [Hc Hs].
  now rewrite (Hpq c Hc), (IH Hs).
Qed.

Lemma map_chars_fixed (p : ascii -> bool) (f : ascii -> ascii) (s : string) :
  (forall c, p c = true -> f c = c) ->
  all_chars p s = true -> map_chars f s = s.
Proof.
  intros Hf. induction s as [|c s IH]; [reflexivity|].
  simpl. intros H. apply andb_prop in H as [Hc Hs].
  now rewrite (Hf c Hc), (IH Hs).
Qed.

Lemma sub_before_upper_fixed (s : string) :
  all_chars (fun c => negb (is_upper c)) s = true ->
  forall start, sub_before_upper start s = s.
Proof.
  induction s as [|c s IH]; [reflexivity|].
  simpl. intros H start. apply andb_prop in H as [Hc Hs].
  apply negb_true_iff in Hc. now rewrite Hc, andb_false_r, (IH Hs).
Qed.

Lemma kebab_char_not_upper (c : ascii) :
  kebab_char c = true -> negb (is_upper c) = true.
Proof. ascii_cases c. Qed.

(** A string of kebab characters goes through the first three steps of the
    canonicalisation unchanged. *)
Lemma hyphenate_fixed (s : string) :
  all_chars kebab_char s = true -> forall start, hyphenate start s = s.
Proof.
  intros H start. unfold hyphenate, kebab_step_a, lower.
  rewrite (map_chars_fixed kebab_char separator_to_hyphen s);
    [|apply kebab_char_fixed|exact H].
  rewrite sub_before_upper_fixed;
    [|exact (all_chars_impl _ _ s kebab_char_not_upper H)].
  apply (map_chars_fixed kebab_char); [apply kebab_char_fixed|exact H].
Qed.

Lemma to_kebab_case_hyphenate (s : string) :
  to_kebab_case s = sub_hyphen_runs false (hyphenate true s).
Proof. unfold to_kebab_case. now rewrite replace_separators. Qed.

Lemma to_kebab_case_fixed (s : string) :
  all_chars kebab_char s = true -> contains "--" s = false ->
  to_kebab_case s = s.
Proof.
  intros Hc Hh. rewrite to_kebab_case_hyphenate, hyphenate_fixed by exact Hc.
  now apply sub_hyphen_runs_fixed.
Qed.



Lemma to_snake_case_map (s : string) :
  to_snake_case s = map_chars (fun c => if Ascii.eqb c "-" then "_"%char else c) s.
Proof. unfold to_snake_case. apply replace_char. Qed.

Lemma map_chars_compose (f g : ascii -> ascii) (s : string) :
  map_chars f (map_chars g s) = map_chars (fun c => f (g c)) s.
Proof. induction s as [|c s IH]; simpl; congruence. Qed.

Lemma kebab_char_through_snake (c : ascii) :
  kebab_char c = true ->
  separator_to_hyphen (if Ascii.eqb c "-" then "_"%char else c) = c.
Proof.
  destruct c as [[] [] [] [] [] [] [] []]; vm_compute; intros H;
    try discriminate H; reflexivity.
Qed.

(** A canonical form read back from one of its projections: the steps of
    the canonicalisation before the collapse of the hyphens. *)
Lemma hyphenate_of_snake (k : string) :
  all_chars kebab_char k = true -> hyphenate true (to_snake_case k) = k.
Proof.
  intros Hc. unfold hyphenate, kebab_step_a.
  rewrite to_snake_case_map, map_chars_compose.
  rewrite (map_chars_fixed kebab_char _ k kebab_char_through_snake Hc).
  rewrite sub_before_upper_fixed;
    [|exact (all_chars_impl _ _ k kebab_char_not_upper Hc)].
  unfold lower.
  apply (map_chars_fixed kebab_char lower_char k); [|exact Hc].
  apply kebab_char_fixed.
Qed.

Lemma hyphenate_of_camel (k : string) :
  all_chars kebab_char k = true ->
  forallb begins_with_letter (split "-" k) = true ->
  hyphenate true (to_camel_case k) = k.
Proof.
  intros Hc H. unfold split in H.
  destruct (split_parts "-" k) as [w ws] eqn:Hsplit.
  cbn [forallb] in H. apply andb_prop in H as [Hw Hws].
  destruct (hyphenate_projections k Hc) as [_ Hp]; [now rewrite Hsplit|].
  now destruct Hp as [_ Hround]; [rewrite Hsplit|].
Qed.

Lemma hyphenate_of_pascal (k : string) :
  all_chars kebab_char k = true ->
  forallb begins_with_letter (split "-" k) = true ->
  hyphenate true (to_pascal_case k) = k.
Proof.
  intros Hc H. unfold split in H.
  destruct (split_parts "-" k) as [w ws] eqn:Hsplit.
  cbn [forallb] in H. apply andb_prop in H as [Hw Hws].
  destruct (hyphenate_projections k Hc) as [_ Hp]; [now rewrite Hsplit|].
  destruct Hp as [Hpascal _]; [now rewrite Hsplit|].
  destruct k as [|c r]; [reflexivity|].
  cbn [split_parts] in Hsplit. rewrite to_pascal_case_cons in *.
  destruct (split_parts "-" r) as [w' ws'].
  destruct (Ascii.eqb c "-").
  - injection Hsplit as <- _. discriminate Hw.
  - injection Hsplit as <- <-. cbn [begins_with_letter] in Hw.
    cbn [all_chars] in Hc. apply andb_prop in Hc as [Hc _].
    destruct (kebab_letter_upper c Hc Hw) as (Hs' & Hu' & Hl').
    rewrite hyphenate_cons, Hs', Hu', Hl' in Hpascal.
    cbn [negb andb] in Hpascal. injection Hpascal as Hrest.
    rewrite hyphenate_cons, Hs', Hl'. cbn [negb andb]. now rewrite Hrest.
Qed.

(** X2.  The snake_case projection loses nothing: the canonical form
    re-derived from the snake_case projection of a canonical form is that
    canonical form, for every string. *)
Theorem kebab_snake_round_trip (s : string) :
  to_kebab_case (to_snake_case (to_kebab_case s)) = to_kebab_case s.
Proof.
  assert (Hc := to_kebab_case_chars s).
  assert (Hh := to_kebab_case_single_hyphens s).
  set (k := to_kebab_case s) in *.
  rewrite to_kebab_case_hyphenate, (hyphenate_of_snake k Hc).
  now apply sub_hyphen_runs_fixed.
Qed.

(** X3.  When every hyphen-separated token of the canonical form of a string
    begins with a letter, the PascalCase projection loses nothing either. *)
Theorem kebab_pascal_round_trip (s : string) :
  forallb begins_with_letter (split "-" (to_kebab_case s)) = true ->
  to_kebab_case (to_pascal_case (to_kebab_case s)) = to_kebab_case s.
Proof.
  intros H.
  assert (Hc := to_kebab_case_chars s).
  assert (Hh := to_kebab_case_single_hyphens s).
  set (k := to_kebab_case s) in *.
  rewrite to_kebab_case_hyphenate, (hyphenate_of_pascal k Hc H).
  now apply sub_hyphen_runs_fixed.
Qed.

Lemma kebab_pascal_round_trip_witness :
  to_kebab_case (to_pascal_case (to_kebab_case "some_fileName"))
  = to_kebab_case "some_fileName".
Proof. apply (kebab_pascal_round_trip "some_fileName"). reflexivity. Defined.

Lemma plain_char_fixed (c : ascii) :
  plain_char c = true ->
  separator_to_hyphen c = c
  /\ Ascii.eqb (lower_char c) "-" = false
  /\ lower_char (lower_char c) = lower_char c
  /\ (is_upper c = true -> upper_char (lower_char c) = c)
  /\ (is_upper c = false -> lower_char c = c).
Proof.
  destruct c as [[] [] [] [] [] [] [] []]; vm_compute; intros H;
    try discriminate H; repeat split; intros H'; try discriminate H';
    reflexivity.
Qed.

Lemma upper_char_lower_char (c : ascii) :
  upper_char (lower_char c) = upper_char c.
Proof. ascii_cases c. Qed.

Lemma to_camel_case_hyphenate (x : string) :
  all_chars plain_char x = true -> to_camel_case (hyphenate false x) = x.
Proof.
  induction x as [|c x IH]; [reflexivity|].
  cbn [all_chars]. intros H. apply andb_prop in H as [Hc Hx].
  destruct (plain_char_fixed c Hc) as (Hs & Hh & Hll & Hup & Hlow).
  rewrite hyphenate_cons, Hs. cbn [negb andb].
  destruct (is_upper c) eqn:Hu.
  - rewrite to_camel_case_cons, Ascii.eqb_refl, to_pascal_case_cons, Hh.
    now rewrite (Hup eq_refl), (IH Hx).
  - rewrite to_camel_case_cons, Hh, Hll, (Hlow eq_refl). now rewrite (IH Hx).
Qed.

Lemma hyphenate_single_hyphens (x : string) :
  all_chars plain_char x = true ->
  forall start, contains "--" (hyphenate start x) = false.
Proof.
  induction x as [|c x IH]; [reflexivity|].
  cbn [all_chars]. intros H start. apply andb_prop in H as [Hc Hx].
  destruct (plain_char_fixed c Hc) as (Hs & Hh & _).
  rewrite Ascii.eqb_sym in Hh.
  assert (Hrest : contains "--"
                    (String (lower_char c) (hyphenate false x)) = false).
  { rewrite contains_unfold, prefix_cons, Hh. apply (IH Hx). }
  rewrite hyphenate_cons, Hs.
  destruct (negb start && is_upper c); [|exact Hrest].
  rewrite contains_unfold, prefix_cons, Ascii.eqb_refl, prefix_cons, Hh.
  exact Hrest.
Qed.

(** X4.  On a text without hyphen, underscore and space, the conversion to
    camelCase changes the first character to lower case and nothing else,
    and the conversion to PascalCase changes the first character to upper
    case and nothing else: the capitals inside the text are kept. *)
Theorem separator_free_projections (s : string) :
  all_chars plain_char s = true ->
  to_camel_case (to_kebab_case s) = lower_first s
  /\ to_pascal_case (to_kebab_case s) = upper_first s.
Proof.
  intros H. rewrite to_kebab_case_hyphenate.
  destruct (sub_hyphen_runs_fixed (hyphenate true s)) as [-> _];
    [now apply hyphenate_single_hyphens|].
  destruct s as [|c x]; [split; reflexivity|].
  cbn [all_chars] in H. apply andb_prop in H as [Hc Hx].
  destruct (plain_char_fixed c Hc) as (Hs & Hh & Hll & _).
  rewrite hyphenate_cons, Hs. cbn [negb andb].
  rewrite to_camel_case_cons, to_pascal_case_cons, Hh.
  rewrite Hll, upper_char_lower_char, (to_camel_case_hyphenate x Hx).
  split; reflexivity.
Qed.

Lemma separator_free_projections_witness :
  to_camel_case (to_kebab_case "XMLHttpRequest") = lower_first "XMLHttpRequest"
  /\ to_pascal_case (to_kebab_case "XMLHttpRequest")
     = upper_first "XMLHttpRequest".
Proof. apply (separator_free_projections "XMLHttpRequest"). reflexivity. Defined.

Lemma kebab_char_projected (c : ascii) :
  kebab_char c = true -> Ascii.eqb c "-" = false ->
  plain_char (lower_char c) = true /\ plain_char (upper_char c) = true.
Proof.
  destruct c as [[] [] [] [] [] [] [] []]; vm_compute; intros H1 H2;
    try discriminate H1; try discriminate H2; split; reflexivity.
Qed.

Lemma projections_plain (k : string) :
  all_chars kebab_char k = true ->
  all_chars plain_char (to_camel_case k) = true
  /\ all_chars plain_char (to_pascal_case k) = true.
Proof.
  induction k as [|c k IH]; [split; reflexivity|].
  cbn [all_chars]. intros H. apply andb_prop in H as [Hc Hk].
  destruct (IH Hk) as [IHc IHp].
  rewrite to_camel_case_cons, to_pascal_case_cons.
  destruct (Ascii.eqb c "-") eqn:E; [now split|].
  destruct (kebab_char_projected c Hc E) as [Hl Hu].
  cbn [all_chars]. now rewrite Hl, Hu, IHc.
Qed.

Lemma kebab_char_to_snake (c : ascii) :
  kebab_char c = true ->
  snake_char (if Ascii.eqb c "-" then "_"%char else c) = true.
Proof.
  destruct c as [[] [] [] [] [] [] [] []]; vm_compute; intros H;
    try discriminate H; reflexivity.
Qed.

(** X5.  Whatever the text, its camelCase and PascalCase variants hold no
    hyphen, underscore or space, and its snake_case variant holds no hyphen,
    space or uppercase letter. *)
Theorem projections_alphabet (s : string) :
  all_chars plain_char (to_camel_case (to_kebab_case s)) = true
  /\ all_chars plain_char (to_pascal_case (to_kebab_case s)) = true
  /\ all_chars snake_char (to_snake_case (to_kebab_case s)) = true.
Proof.
  assert (Hc := to_kebab_case_chars s).
  destruct (projections_plain _ Hc) as [H1 H2].
  repeat split; auto.
  rewrite to_snake_case_map.
  exact (all_chars_map _ _ _ _ kebab_char_to_snake Hc).
Qed.

Lemma split_parts_single (sep : ascii) (s : string) :
  all_chars (fun c => negb (Ascii.eqb c sep)) s = true ->
  split_parts sep s = (s, []).
Proof.
  induction s as [|c s IH]; [reflexivity|].
  cbn [all_chars split_parts]. intros H. apply andb_prop in H as [Hc Hs].
  apply negb_true_iff in Hc. now rewrite (IH Hs), Hc.
Qed.

Lemma no_hyphen_no_double (s : string) :
  all_chars (fun c => negb (Ascii.eqb c "-")) s = true ->
  contains "--" s = false.
Proof.
  induction s as [|c s IH]; [reflexivity|].
  cbn [all_chars]. intros H. apply andb_prop in H as [Hc Hs].
  apply negb_true_iff in Hc. rewrite Ascii.eqb_sym in Hc.
  now rewrite contains_unfold, prefix_cons, Hc, (IH Hs).
Qed.

Lemma lower_or_digit_facts (c : ascii) :
  lower_or_digit c = true ->
  kebab_char c = true /\ negb (Ascii.eqb c "-") = true /\ lower_char c = c
  /\ (if Ascii.eqb c "-" then "_"%char else c) = c.
Proof.
  destruct c as [[] [] [] [] [] [] [] []]; vm_compute; intros H;
    try discriminate H; repeat split.
Qed.

(** X8.  For a text that is one word of lowercase letters and digits, the
    original, camelCase, snake_case and kebab-case variants are the word
    itself and the PascalCase variant is the capitalised word. *)
Theorem single_word_variations (s : string) :
  all_chars lower_or_digit s = true ->
  generate_all_case_variations s = variation_set s s (capitalize s) s s.
Proof.
  intros H.
  assert (Hk : all_chars kebab_char s = true)
    by (apply (all_chars_impl lower_or_digit); [apply lower_or_digit_facts|exact H]).
  assert (Hn : all_chars (fun c => negb (Ascii.eqb c "-")) s = true)
    by (apply (all_chars_impl lower_or_digit); [apply lower_or_digit_facts|exact H]).
  assert (Hl : lower s = s)
    by (apply (map_chars_fixed lower_or_digit); [apply lower_or_digit_facts|exact H]).
  unfold generate_all_case_variations, variation_set.
  rewrite (to_kebab_case_fixed s Hk (no_hyphen_no_double s Hn)).
  unfold to_camel_case, to_pascal_case, split.
  rewrite (split_parts_single "-" s Hn). cbn [map join].
  rewrite !append_nil_r, Hl, to_snake_case_map.
  rewrite (map_chars_fixed lower_or_digit _ s); [reflexivity| |exact H].
  apply lower_or_digit_facts.
Qed.

Lemma single_word_variations_witness :
  generate_all_case_variations "example"
  = variation_set "example" "example" (capitalize "example")
      "example" "example".
Proof. apply (single_word_variations "example"). reflexivity. Defined.

(** ** Further properties of the classifier *)

Lemma all_chars_append (p : ascii -> bool) (a b : string) :
  all_chars p (a ++ b) = all_chars p a && all_chars p b.
Proof.
  induction a as [|c a IH]; [reflexivity|].
  simpl. now rewrite IH, andb_assoc.
Qed.

Lemma Matches_star_class_chars (p : ascii -> bool) (t : string) :
  Matches (Star (Class p)) t -> all_chars p t = true.
Proof.
  intros H. remember (Star (Class p)) as r eqn:Hr.
  induction H as [ | | | | | r0 | r0 s1 s2 H1 _ H2 IH2 ];
    try discriminate Hr.
  - reflexivity.
  - injection Hr as ->. inversion H1; subst.
    simpl. rewrite (IH2 eq_refl). now rewrite H0.
Qed.

Lemma Matches_plus_class_chars (p : ascii -> bool) (t : string) :
  Matches (Plus (Class p)) t ->
  exists c r, t = String c r /\ p c = true /\ all_chars p r = true.
Proof.
  intros H. inversion H as [ | | r1 r2 s1 s2 H1 H2 | | | | ]; subst.
  inversion H1; subst. simpl.
  eexists _, _. split; [reflexivity|].
  split; [assumption|now apply Matches_star_class_chars].
Qed.

Lemma separated_tail_word (sep : ascii) (w t : string) :
  lower_or_digit sep = false ->
  all_chars lower_or_digit w = true ->
  separated_tail sep t = true ->
  separated_tail sep (w ++ t) = true.
Proof.
  intros Hsep. induction w as [|c w IH]; [auto|].
  cbn [all_chars]. intros H Ht. apply andb_prop in H as [Hc Hw].
  change (String c w ++ t) with (String c (w ++ t)). cbn [separated_tail].
  destruct (Ascii.eqb_spec c sep) as [->|_]; [congruence|].
  now rewrite Hc, IH.
Qed.

Lemma Matches_separated_tail (sep : ascii) (t : string) :
  lower_or_digit sep = false ->
  Matches (Star (Cat (Chr sep) (Plus (Class lower_or_digit)))) t ->
  separated_tail sep t = true.
Proof.
  intros Hsep H.
  remember (Star (Cat (Chr sep) (Plus (Class lower_or_digit)))) as r eqn:Hr.
  induction H as [ | | | | | r0 | r0 s1 s2 H1 _ H2 IH2 ];
    try discriminate Hr.
  - reflexivity.
  - injection Hr as ->. specialize (IH2 eq_refl).
    inversion H1 as [ | | r1 r2 a b Ha Hb | | | | ]; subst.
    inversion Ha as [ | p c0 Hc0 | | | | | ]; subst.
    apply Ascii.eqb_eq in Hc0 as <-.
    apply Matches_plus_class_chars in Hb as (c & w & -> & Hc & Hw).
    change ((String sep "" ++ String c w) ++ s2)
      with (String sep (String c (w ++ s2))).
    cbn [separated_tail]. rewrite Ascii.eqb_refl, Hc.
    destruct (Ascii.eqb_spec c sep) as [->|_]; [congruence|].
    cbn [negb andb].
    now rewrite (separated_tail_word sep w s2 Hsep Hw IH2).
Qed.

(** The words of [[a-z0-9]+(sep [a-z0-9]+)*]. *)
Lemma Matches_separated (sep : ascii) (s : string) :
  lower_or_digit sep = false ->
  Matches (Cat (Plus (Class lower_or_digit))
             (Star (Cat (Chr sep) (Plus (Class lower_or_digit))))) s ->
  exists c r, s = String c r /\ lower_or_digit c = true
              /\ separated_tail sep r = true.
Proof.
  intros Hsep H. inversion H as [ | | r1 r2 a b Ha Hb | | | | ]; subst.
  apply Matches_plus_class_chars in Ha as (c & w & -> & Hc & Hw).
  apply (Matches_separated_tail sep b Hsep) in Hb.
  exists c, (w ++ b). split; [reflexivity|]. split; [exact Hc|].
  now apply separated_tail_word.
Qed.

Lemma chomp_append (s s' : string) :
  chomp s = Some s' -> s = s' ++ String "010" "".
Proof.
  revert s'. induction s as [|c s IH]; intros s'; [discriminate|].
  cbn [chomp]. destruct s as [|c' s].
  - destruct (Ascii.eqb_spec c "010") as [->|_]; [|discriminate].
    now intros [= <-].
  - destruct (chomp (String c' s)) as [r'|]; [|discriminate].
    intros [= <-]. now rewrite (IH r' eq_refl).
Qed.

Lemma append_chomp (s' : string) : chomp (s' ++ String "010" "") = Some s'.
Proof.
  induction s' as [|c s' IH]; [reflexivity|].
  change (String c s' ++ String "010" "")
    with (String c (s' ++ String "010" "")).
  cbn [chomp]. rewrite IH. now destruct s'.
Qed.

(** A match of an anchored pattern is a whole match of the string, or of the
    string without its final newline. *)
Lemma match_anchored_cases (body : regex) (s : string) :
  match_anchored body s = true ->
  exists s', Matches body s' /\ (s = s' \/ s = s' ++ String "010" "").
Proof.
  unfold match_anchored. intros H. apply orb_prop in H as [H|H].
  - exists s. split; [now apply fullmatch_Matches|now left].
  - destruct (chomp s) as [s'|] eqn:Hc; [|discriminate].
    exists s'. split; [now apply fullmatch_Matches|].
    right. now apply chomp_append.
Qed.

Lemma match_anchored_intro (body : regex) (s s' : string) :
  Matches body s' -> s = s' \/ s = s' ++ String "010" "" ->
  match_anchored body s = true.
Proof.
  intros Hm [->| ->]; unfold match_anchored.
  - apply fullmatch_Matches in Hm. now rewrite Hm.
  - rewrite append_chomp. apply fullmatch_Matches in Hm. rewrite Hm.
    apply orb_true_r.
Qed.

Lemma prefix_one_append (b c : ascii) (s : string) :
  Ascii.eqb b c = false ->
  prefix (String b "") (s ++ String c "") = prefix (String b "") s.
Proof.
  intros Hbc. destruct s as [|x s].
  - simpl append. now rewrite prefix_cons, Hbc.
  - change (String x s ++ String c "") with (String x (s ++ String c "")).
    now rewrite !prefix_cons, !prefix_nil.
Qed.

Lemma contains_two_append (a b c : ascii) (s : string) :
  Ascii.eqb b c = false ->
  contains (String a (String b "")) (s ++ String c "")
  = contains (String a (String b "")) s.
Proof.
  intros Hbc. induction s as [|x s IH].
  - simpl append. rewrite !contains_unfold, prefix_cons.
    now rewrite andb_false_r.
  - change (String x s ++ String c "") with (String x (s ++ String c "")).
    rewrite (contains_unfold _ (String x (s ++ String c ""))).
    rewrite (contains_unfold _ (String x s)).
    now rewrite !prefix_cons, prefix_one_append, IH.
Qed.

Lemma separated_tail_chars (sep : ascii) (p : ascii -> bool) (r : string) :
  p sep = true -> (forall c, lower_or_digit c = true -> p c = true) ->
  separated_tail sep r = true -> all_chars p r = true.
Proof.
  intros Hsep Hp. induction r as [|c r IH]; [reflexivity|].
  cbn [separated_tail all_chars].
  destruct (Ascii.eqb_spec c sep) as [->|_]; intros H;
    apply andb_prop in H as [Hc Hr]; rewrite (IH Hr).
  - now rewrite Hsep.
  - now rewrite (Hp c Hc).
Qed.

Lemma separated_tail_single (sep c : ascii) (r : string) :
  Ascii.eqb sep c = false ->
  separated_tail sep r = true ->
  contains (String sep (String sep "")) (String c r) = false.
Proof.
  intros Hc Hr. rewrite contains_unfold, prefix_cons, Hc. cbn [andb orb].
  clear c Hc. induction r as [|c r IH]; [reflexivity|].
  cbn [separated_tail] in Hr.
  rewrite contains_unfold, prefix_cons.
  destruct (Ascii.eqb_spec c sep) as [->|Hne].
  - apply andb_prop in Hr as [Hnext Hr]. rewrite (IH Hr).
    destruct r as [|c' r]; [discriminate|].
    apply andb_prop in Hnext as [_ Hnext]. apply negb_true_iff in Hnext.
    rewrite Ascii.eqb_sym in Hnext. rewrite prefix_cons, Hnext.
    cbn [andb]. now rewrite andb_false_r.
  - apply andb_prop in Hr as [_ Hr]. rewrite (IH Hr).
    assert (E : Ascii.eqb sep c = false)
      by (apply Ascii.eqb_neq; congruence).
    now rewrite E.
Qed.

Lemma separated_tail_all_or_sep (sep : ascii) (r : string) :
  separated_tail sep r = true ->
  all_chars lower_or_digit r = true \/ any_char (Ascii.eqb sep) r = true.
Proof.
  induction r as [|c r IH]; [now left|].
  cbn [separated_tail all_chars any_char].
  destruct (Ascii.eqb_spec c sep) as [->|_]; intros H.
  - right. now rewrite Ascii.eqb_refl.
  - apply andb_prop in H as [Hc Hr]. destruct (IH Hr) as [Ha|Hs].
    + left. now rewrite Hc, Ha.
    + right. rewrite Hs. apply orb_true_r.
Qed.

Lemma Matches_class_star_class (p q : ascii -> bool) (s : string) :
  Matches (Cat (Class p) (Star (Class q))) s ->
  exists c r, s = String c r /\ p c = true /\ all_chars q r = true.
Proof.
  intros H. inversion H as [ | | r1 r2 a b Ha Hb | | | | ]; subst.
  inversion Ha; subst. apply Matches_star_class_chars in Hb.
  simpl. eauto.
Qed.

Lemma Matches_snake_word (c : ascii) (r : string) :
  all_chars lower_or_digit (String c r) = true ->
  Matches snake_re (String c r).
Proof.
  intros H. rewrite <- (append_nil_r (String c r)).
  constructor; [now apply Matches_plus_class|constructor].
Qed.

Lemma lower_or_digit_not_sep (c : ascii) :
  lower_or_digit c = true ->
  Ascii.eqb "_" c = false /\ Ascii.eqb "-" c = false
  /\ snake_char c = true /\ kebab_char c = true.
Proof.
  destruct c as [[] [] [] [] [] [] [] []]; vm_compute; intros H;
    try discriminate H; repeat split.
Qed.

Lemma snake_re_shape (s : string) :
  match_anchored snake_re s = true ->
  all_chars snake_char s = true /\ contains "__" s = false.
Proof.
  intros H. apply match_anchored_cases in H as (s' & Hm & Hs).
  apply (Matches_separated "_" s' eq_refl) in Hm as (c & r & -> & Hc & Hr).
  destruct (lower_or_digit_not_sep c Hc) as (Hu & _ & Hsc & _).
  assert (Hchars : all_chars snake_char (String c r) = true).
  { cbn [all_chars]. rewrite Hsc.
    apply (separated_tail_chars "_" snake_char r eq_refl); [|exact Hr].
    intros x Hx. apply (lower_or_digit_not_sep x Hx). }
  assert (Hsingle := separated_tail_single "_" c r Hu Hr).
  destruct Hs as [->| ->]; [now split|].
  rewrite all_chars_append, Hchars, contains_two_append by reflexivity.
  now split.
Qed.

Lemma kebab_re_shape (s : string) :
  match_anchored kebab_re s = true ->
  all_chars kebab_char s = true /\ contains "--" s = false.
Proof.
  intros H. apply match_anchored_cases in H as (s' & Hm & Hs).
  apply (Matches_separated "-" s' eq_refl) in Hm as (c & r & -> & Hc & Hr).
  destruct (lower_or_digit_not_sep c Hc) as (_ & Hh & _ & Hkc).
  assert (Hchars : all_chars kebab_char (String c r) = true).
  { cbn [all_chars]. rewrite Hkc.
    apply (separated_tail_chars "-" kebab_char r eq_refl); [|exact Hr].
    intros x Hx. apply (lower_or_digit_not_sep x Hx). }
  assert (Hsingle := separated_tail_single "-" c r Hh Hr).
  destruct Hs as [->| ->]; [now split|].
  rewrite all_chars_append, Hchars, contains_two_append by reflexivity.
  now split.
Qed.

Lemma alnum_plain (c : ascii) : alnum c = true -> plain_char c = true.
Proof. ascii_cases c. Qed.

Lemma is_lower_facts (c : ascii) :
  is_lower c = true -> plain_char c = true /\ lower_char c = c.
Proof.
  destruct c as [[] [] [] [] [] [] [] []]; vm_compute; intros H;
    try discriminate H; split; reflexivity.
Qed.

Lemma is_upper_facts (c : ascii) :
  is_upper c = true -> plain_char c = true /\ upper_char c = c.
Proof.
  destruct c as [[] [] [] [] [] [] [] []]; vm_compute; intros H;
    try discriminate H; split; reflexivity.
Qed.

Lemma camel_re_shape (s : string) :
  match_anchored camel_re s = true ->
  all_chars plain_char s = true /\ lower_first s = s.
Proof.
  intros H. apply match_anchored_cases in H as (s' & Hm & Hs).
  apply Matches_class_star_class in Hm as (c & r & -> & Hc & Hr).
  destruct (is_lower_facts c Hc) as [Hp Hl].
  assert (Hchars : all_chars plain_char (String c r) = true).
  { cbn [all_chars]. rewrite Hp. exact (all_chars_impl _ _ r alnum_plain Hr). }
  destruct Hs as [->| ->].
  - split; [exact Hchars|]. cbn [lower_first]. now rewrite Hl.
  - rewrite all_chars_append, Hchars. split; [reflexivity|].
    cbn [append lower_first]. now rewrite Hl.
Qed.

Lemma pascal_re_shape (s : string) :
  match_anchored pascal_re s = true ->
  all_chars plain_char s = true /\ upper_first s = s
  /\ exists c r, s = String c r /\ is_upper c = true.
Proof.
  intros H. apply match_anchored_cases in H as (s' & Hm & Hs).
  apply Matches_class_star_class in Hm as (c & r & -> & Hc & Hr).
  destruct (is_upper_facts c Hc) as [Hp Hl].
  assert (Hchars : all_chars plain_char (String c r) = true).
  { cbn [all_chars]. rewrite Hp. exact (all_chars_impl _ _ r alnum_plain Hr). }
  destruct Hs as [->| ->].
  - split; [exact Hchars|]. cbn [upper_first]. rewrite Hl. eauto.
  - rewrite all_chars_append, Hchars. split; [reflexivity|].
    cbn [append upper_first]. rewrite Hl. eauto.
Qed.

Lemma snake_char_facts (c : ascii) :
  snake_char c = true ->
  kebab_char (separator_to_hyphen c) = true
  /\ Ascii.eqb "-" (separator_to_hyphen c) = Ascii.eqb "_" c
  /\ (if Ascii.eqb (separator_to_hyphen c) "-" then "_"%char
      else separator_to_hyphen c) = c.
Proof.
  destruct c as [[] [] [] [] [] [] [] []]; vm_compute; intros H;
    try discriminate H; repeat split.
Qed.

Lemma contains_hyphens_of_underscores (s : string) :
  all_chars snake_char s = true ->
  contains "--" (kebab_step_a s) = contains "__" s.
Proof.
  unfold kebab_step_a. induction s as [|c s IH]; [reflexivity|].
  cbn [all_chars map_chars]. intros H. apply andb_prop in H as [Hc Hs].
  rewrite (contains_unfold "--"), (contains_unfold "__"), !prefix_cons.
  destruct (snake_char_facts c Hc) as (_ & -> & _). rewrite (IH Hs).
  f_equal. f_equal.
  destruct s as [|c' s]; [reflexivity|].
  cbn [all_chars map_chars] in *. apply andb_prop in Hs as [Hc' _].
  rewrite !prefix_cons, !prefix_nil.
  now destruct (snake_char_facts c' Hc') as (_ & -> & _).
Qed.

(** A string without uppercase letter, space, hyphen and doubled underscore
    is its own snake_case form. *)
Lemma to_snake_case_fixed (s : string) :
  all_chars snake_char s = true -> contains "__" s = false ->
  to_snake_case (to_kebab_case s) = s.
Proof.
  intros Hc Hu.
  assert (Hk : all_chars kebab_char (kebab_step_a s) = true).
  { unfold kebab_step_a. apply (all_chars_map _ snake_char); [|exact Hc].
    intros c H. apply (snake_char_facts c H). }
  rewrite to_kebab_case_hyphenate. unfold hyphenate.
  rewrite sub_before_upper_fixed;
    [|exact (all_chars_impl _ _ _ kebab_char_not_upper Hk)].
  unfold lower.
  rewrite (map_chars_fixed kebab_char lower_char);
    [|apply kebab_char_fixed|exact Hk].
  destruct (sub_hyphen_runs_fixed (kebab_step_a s)) as [-> _].
  { now rewrite contains_hyphens_of_underscores. }
  rewrite to_snake_case_map. unfold kebab_step_a.
  rewrite map_chars_compose.
  apply (map_chars_fixed snake_char); [|exact Hc].
  intros c H. apply (snake_char_facts c H).
Qed.

(** X6.  Converting a string to the convention that the classifier detects
    for it gives the string back, whatever the string. *)
Theorem convert_to_detected_case (s : string) :
  convert_string s (detect_case_type s) = Ok s.
Proof.
  unfold detect_case_type, patterns. cbn [first_match].
  destruct (match_anchored snake_re s) eqn:Hsnake.
  { apply snake_re_shape in Hsnake as [Hc Hu].
    change (convert_string s "snake_case")
      with (Ok (to_snake_case (to_kebab_case s))).
    now rewrite to_snake_case_fixed. }
  destruct (match_anchored kebab_re s) eqn:Hkebab.
  { apply kebab_re_shape in Hkebab as [Hc Hh].
    change (convert_string s "kebab-case") with (Ok (to_kebab_case s)).
    now rewrite to_kebab_case_fixed. }
  destruct (match_anchored camel_re s) eqn:Hcamel.
  { apply camel_re_shape in Hcamel as [Hc Hl].
    change (convert_string s "camelCase")
      with (Ok (to_camel_case (to_kebab_case s))).
    destruct (separator_free_projections s Hc) as [-> _]. now rewrite Hl. }
  destruct (match_anchored pascal_re s) eqn:Hpascal.
  { apply pascal_re_shape in Hpascal as (Hc & Hl & _).
    change (convert_string s "PascalCase")
      with (Ok (to_pascal_case (to_kebab_case s))).
    destruct (separator_free_projections s Hc) as [_ ->]. now rewrite Hl. }
  reflexivity.
Qed.

Lemma any_char_append (p : ascii -> bool) (a b : string) :
  any_char p (a ++ b) = any_char p a || any_char p b.
Proof.
  induction a as [|c a IH]; [reflexivity|].
  simpl. now rewrite IH, orb_assoc.
Qed.

Lemma any_char_contains (c : ascii) (s : string) :
  any_char (Ascii.eqb c) s = true -> contains (String c "") s = true.
Proof.
  induction s as [|x s IH]; [discriminate|].
  cbn [any_char]. rewrite contains_unfold, prefix_cons, prefix_nil.
  rewrite andb_true_r. intros H. apply orb_prop in H as [->|H]; [reflexivity|].
  rewrite (IH H). apply orb_true_r.
Qed.

Lemma alnum_lower_or_upper (r : string) :
  all_chars alnum r = true ->
  all_chars lower_or_digit r = true \/ any_char is_upper r = true.
Proof.
  induction r as [|c r IH]; [now left|].
  cbn [all_chars any_char]. intros H. apply andb_prop in H as [Hc Hr].
  destruct (is_upper c) eqn:Hu; [now right|].
  destruct (IH Hr) as [Ha|Hb].
  - left. rewrite Ha, andb_true_r.
    unfold alnum in Hc. rewrite Hu, orb_false_r in Hc. exact Hc.
  - right. exact Hb.
Qed.

(** A word of lowercase letters and digits, with or without a final newline,
    is matched by the snake_case pattern. *)
Lemma snake_re_word (s : string) (c : ascii) (r : string) :
  all_chars lower_or_digit (String c r) = true ->
  s = String c r \/ s = String c r ++ String "010" "" ->
  match_anchored snake_re s = true.
Proof.
  intros H Hs. apply (match_anchored_intro snake_re s (String c r)); [|exact Hs].
  now apply Matches_snake_word.
Qed.

(** X7.  What a classification tells about the string: a string classified
    kebab-case holds a hyphen, a string classified camelCase holds an
    uppercase letter, and a string classified PascalCase begins with an
    uppercase letter. *)
Theorem classified_shapes (s : string) :
  (detect_case_type s = "kebab-case" -> Substring "-" s)
  /\ (detect_case_type s = "camelCase" -> any_char is_upper s = true)
  /\ (detect_case_type s = "PascalCase" ->
      exists c r, s = String c r /\ is_upper c = true).
Proof.
  unfold detect_case_type, patterns. cbn [first_match].
  destruct (match_anchored snake_re s) eqn:Hsnake;
    [repeat split; discriminate|].
  destruct (match_anchored kebab_re s) eqn:Hkebab.
  { split; [|split; discriminate]. intros _.
    apply contains_Substring, any_char_contains.
    apply match_anchored_cases in Hkebab as (s' & Hm & Hs).
    apply (Matches_separated "-" s' eq_refl) in Hm as (c & r & -> & Hc & Hr).
    destruct (separated_tail_all_or_sep "-" r Hr) as [Hall|Hsep].
    - rewrite (snake_re_word s c r) in Hsnake; [discriminate| |exact Hs].
      cbn [all_chars]. now rewrite Hc, Hall.
    - assert (Hany : any_char (Ascii.eqb "-") (String c r) = true)
        by (cbn [any_char]; rewrite Hsep; apply orb_true_r).
      destruct Hs as [->| ->]; [exact Hany|].
      now rewrite any_char_append, Hany. }
  destruct (match_anchored camel_re s) eqn:Hcamel.
  { split; [discriminate|]. split; [|discriminate]. intros _.
    apply match_anchored_cases in Hcamel as (s' & Hm & Hs).
    apply Matches_class_star_class in Hm as (c & r & -> & Hc & Hr).
    destruct (alnum_lower_or_upper r Hr) as [Hall|Hup].
    - rewrite (snake_re_word s c r) in Hsnake; [discriminate| |exact Hs].
      cbn [all_chars]. unfold lower_or_digit at 1. now rewrite Hc, Hall.
    - assert (Hany : any_char is_upper (String c r) = true)
        by (cbn [any_char]; rewrite Hup; apply orb_true_r).
      destruct Hs as [->| ->]; [exact Hany|].
      now rewrite any_char_append, Hany. }
  destruct (match_anchored pascal_re s) eqn:Hpascal.
  { split; [discriminate|]. split; [discriminate|]. intros _.
    now apply pascal_re_shape in Hpascal as (_ & _ & H). }
  repeat split; discriminate.
Qed.

Lemma classified_shapes_witness :
  Substring "-" "some-name" /\ any_char is_upper "isJSON" = true.
Proof.
  split.
  - apply (proj1 (classified_shapes "some-name")). reflexivity.
  - apply (proj1 (proj2 (classified_shapes "isJSON"))). reflexivity.
Defined.

(** ** Further properties of the substitutions *)

Lemma length_append (a b : string) : length (a ++ b) = length a + length b.
Proof. induction a as [|c a IH]; simpl; congruence. Qed.

Lemma intersperse_empty (s : string) : intersperse "" s = s.
Proof. induction s as [|c s IH]; simpl; congruence. Qed.

Lemma replace_from_same (a : ascii) (o : string) (n : nat) :
  forall s, length s <= n ->
            replace_from (String a o) (String a o) 0 s = s.
Proof.
  induction n as [|n IH]; intros s Hlen.
  - destruct s; [reflexivity|simpl in Hlen; lia].
  - destruct s as [|c r]; [reflexivity|].
    cbn [replace_from]. destruct (prefix (String a o) (String c r)) eqn:Hp.
    + apply prefix_split in Hp as [t Ht]. rewrite Ht.
      simpl in Ht. injection Ht as -> ->.
      assert (E : length (String a o) - 1 = length o) by (simpl; lia).
      rewrite E, replace_from_skip, IH; [reflexivity|].
      simpl in Hlen. rewrite length_append in Hlen. lia.
    + f_equal. apply IH. simpl in Hlen. lia.
Qed.

(** Replacing a text by itself changes nothing. *)
Lemma replace_same (s old : string) : replace s old old = s.
Proof.
  destruct old as [|a o]; [apply intersperse_empty|].
  apply (replace_from_same a o (length s)). lia.
Qed.

Lemma replace_first_same (name n0 n1 n2 n3 n4 : string) :
  replace_first name
    (variation_set n0 n1 n2 n3 n4) (variation_set n0 n1 n2 n3 n4) = Ok name.
Proof.
  unfold variation_set.
  cbn [replace_first dict_get String.eqb Ascii.eqb Bool.eqb].
  repeat rewrite replace_same.
  destruct (contains n0 name), (contains n1 name), (contains n2 name),
    (contains n3 name), (contains n4 name); reflexivity.
Qed.

Lemma replace_content_same (text n0 n1 n2 n3 n4 : string) :
  replace_content text
    (variation_set n0 n1 n2 n3 n4) (variation_set n0 n1 n2 n3 n4) = Ok text.
Proof.
  rewrite replace_content_unrolled. cbv beta zeta.
  repeat rewrite replace_same.
  destruct (contains n0 text), (contains n1 text), (contains n2 text),
    (contains n3 text), (contains n4 text); reflexivity.
Qed.

(** X9.  When the replacement has the variations of the needle, both
    substitutions give back their input: the name for a filename, the text
    for a content. *)
Theorem same_variations_change_nothing
    (text n0 n1 n2 n3 n4 : string) :
  replace_text_in_filename text
    (variation_set n0 n1 n2 n3 n4) (variation_set n0 n1 n2 n3 n4) = Ok text
  /\ replace_content text
       (variation_set n0 n1 n2 n3 n4) (variation_set n0 n1 n2 n3 n4)
     = Ok text.
Proof.
  split; [apply replace_first_same|apply replace_content_same].
Qed.

Lemma replace_first_keys (name : string) (rv nv : dict) :
  incl (map fst nv) (map fst rv) ->
  exists r, replace_first name nv rv = Ok r.
Proof.
  induction nv as [|[k n] nv IH]; intros Hincl; [now exists name|].
  cbn [replace_first]. destruct (contains n name).
  - destruct (dict_get_key rv k) as [r Hr].
    + apply Hincl. now left.
    + rewrite Hr. eauto.
  - apply IH. intros x Hx. apply Hincl. now right.
Qed.

(** X10.  The key of a needle variant is looked up in the replacement
    dictionary only when the variant occurs in the name: the first variant
    that occurs raises a KeyError when its key is missing there, and no
    KeyError is raised when every key of the needle dictionary is a key of
    the replacement dictionary. *)
Theorem filename_missing_key :
  (forall (name : string) (nv rv : dict) (i : nat) (k n : string),
     nth_error nv i = Some (k, n) ->
     Substring n name ->
     (forall j k' m, j < i -> nth_error nv j = Some (k', m) ->
                     ~ Substring m name) ->
     dict_get rv k = None ->
     replace_text_in_filename name nv rv = Raise (KeyError k))
  /\ (forall (name : string) (nv rv : dict),
        incl (map fst nv) (map fst rv) ->
        raises (replace_text_in_filename name nv rv) = false).
Proof.
  split.
  - intros name nv rv i k n Hi Hsub Hbefore Hnone.
    unfold replace_text_in_filename.
    rewrite (replace_first_at name rv nv i k n Hi).
    + now rewrite Hnone.
    + now apply contains_Substring.
    + intros j k' m Hj Hnth. apply not_contains_Substring. eauto.
  - intros name nv rv Hincl.
    destruct (replace_first_keys name rv nv Hincl) as [r Hr].
    unfold replace_text_in_filename. now rewrite Hr.
Qed.

Lemma filename_missing_key_witness :
  replace_text_in_filename "my_example.txt"
    (generate_all_case_variations "example") [("camelCase", "sample")]
  = Raise (KeyError "original")
  /\ raises (replace_text_in_filename "my_example.txt"
               (generate_all_case_variations "example")
               (generate_all_case_variations "sample")) = false.
Proof.
  split.
  - apply (proj1 filename_missing_key "my_example.txt"
             (generate_all_case_variations "example") [("camelCase", "sample")]
             0 "original" "example" eq_refl).
    + apply contains_Substring. reflexivity.
    + intros j k' m Hj. inversion Hj.
    + reflexivity.
  - apply (proj2 filename_missing_key). intros x Hx. exact Hx.
Defined.

Lemma replace_each_none (content : string) (rv nv : dict) :
  forall cur,
    (forall k v, In (k, v) nv -> contains v content = false) ->
    replace_each content cur nv rv = Ok cur.
Proof.
  induction nv as [|[k n] nv IH]; intros cur H; [reflexivity|].
  cbn [replace_each]. rewrite (H k n); [|now left].
  apply IH. intros k' v Hin. apply (H k' v). now right.
Qed.

(** X11.  A content in which no needle variant occurs comes back unchanged
    from the content loop, whatever the two dictionaries are. *)
Theorem content_no_match_identity (content : string) (nv rv : dict) :
  (forall k v, In (k, v) nv -> ~ Substring v content) ->
  replace_content content nv rv = Ok content.
Proof.
  intros H. apply replace_each_none.
  intros k v Hin. apply not_contains_Substring. eauto.
Qed.

Lemma content_no_match_identity_witness :
  replace_content "This is a test file."
    (generate_all_case_variations "example")
    (generate_all_case_variations "sample")
  = Ok "This is a test file.".
Proof.
  apply (content_no_match_identity "This is a test file."
           (generate_all_case_variations "example")
           (generate_all_case_variations "sample")).
  intros k v Hin. apply not_contains_Substring.
  repeat (destruct Hin as [Hin|Hin]; [injection Hin as <- <-; reflexivity|]).
  destruct Hin.
Defined.

(** ** The traversals *)

Lemma andthen_done_l (a : outcome) : andthen done a = a.
Proof. now destruct a. Qed.

Lemma replace_each_keys (content : string) (rv nv : dict) :
  incl (map fst nv) (map fst rv) ->
  forall cur, exists r, replace_each content cur nv rv = Ok r.
Proof.
  induction nv as [|[k n] nv IH]; intros Hincl cur; [now exists cur|].
  assert (Hrest : incl (map fst nv) (map fst rv))
    by (intros x Hx; apply Hincl; now right).
  cbn [replace_each]. destruct (contains n content); [|now apply IH].
  destruct (dict_get_key rv k) as [r Hr]; [apply Hincl; now left|].
  rewrite Hr. now apply IH.
Qed.

Lemma generated_keys (needle replacement : string) :
  incl (map fst (generate_all_case_variations needle))
       (map fst (generate_all_case_variations replacement)).
Proof. intros x Hx. exact Hx. Qed.

Section Walks.

Variable fnmatch : string -> string -> bool.
Variables nv rv : dict.
Hypothesis keys : incl (map fst nv) (map fst rv).
Variables exclude_dirs exclude_extensions : list string.
Variable dry_run : bool.

Lemma rename_in_dir_events (root : string) (files : list (string * string)) :
  rename_in_dir nv rv dry_run root (map fst files)
  = (if dry_run then []
     else flat_map (rename_event nv rv)
            (map (fun f => (root, fst f, snd f)) files), None).
Proof.
  induction files as [|[filename content] files IH].
  - now destruct dry_run.
  - cbn [map fst snd rename_in_dir flat_map rename_event].
    destruct (replace_first_keys filename rv nv keys) as [r Hr].
    unfold replace_text_in_filename. rewrite Hr, IH.
    destruct (r =? filename), dry_run; reflexivity.
Qed.

Lemma rename_walk_events (t : tree) :
  forall root,
    rename_walk nv rv exclude_dirs dry_run root t
    = (if dry_run then []
       else flat_map (rename_event nv rv)
              (files_under root (prune exclude_dirs t)), None).
Proof.
  induction t as [files dirs IH] using tree_induction. intros root.
  cbn [rename_walk prune files_under]. rewrite rename_in_dir_events.
  match goal with
  | |- andthen _ ?walk = (if _ then _ else flat_map _ (_ ++ ?under)%list, _) =>
      assert (E : walk = (if dry_run then []
                          else flat_map (rename_event nv rv) under, None))
  end.
  { induction IH as [|[d sub] more Hd _ IHmore]; [now destruct dry_run|].
    cbn [snd] in Hd. cbn iota beta delta [existsb].
    destruct (existsb (String.eqb d) exclude_dirs).
    - rewrite IHmore. now destruct dry_run.
    - rewrite Hd, IHmore. destruct dry_run; [reflexivity|].
      unfold andthen. cbn [fst snd]. now rewrite flat_map_app. }
  rewrite E. destruct dry_run; [reflexivity|].
  unfold andthen. cbn [fst snd]. now rewrite flat_map_app.
Qed.

Lemma replace_in_dir_events (root : string) (files : list (string * string)) :
  replace_in_dir fnmatch nv rv exclude_extensions dry_run root files
  = (if dry_run then []
     else flat_map (write_event fnmatch nv rv exclude_extensions)
            (map (fun f => (root, fst f, snd f)) files), None).
Proof.
  induction files as [|[filename content] files IH]; [now destruct dry_run|].
  cbn [map fst snd replace_in_dir flat_map write_event].
  destruct (is_text_file_by_ext filename); cbn [negb orb andb];
    [|exact IH].
  destruct (existsb (fun pat => fnmatch filename pat) exclude_extensions);
    cbn [negb]; [exact IH|].
  destruct (replace_each_keys content rv nv keys content) as [r Hr].
  unfold replace_content. rewrite Hr, IH.
  destruct (r =? content), dry_run; reflexivity.
Qed.

Lemma replace_walk_events (t : tree) :
  forall root,
    replace_walk fnmatch nv rv exclude_dirs exclude_extensions dry_run root t
    = (if dry_run then []
       else flat_map (write_event fnmatch nv rv exclude_extensions)
              (files_under root (prune exclude_dirs t)), None).
Proof.
  induction t as [files dirs IH] using tree_induction. intros root.
  cbn [replace_walk prune files_under]. rewrite replace_in_dir_events.
  match goal with
  | |- andthen _ ?walk = (if _ then _ else flat_map _ (_ ++ ?under)%list, _) =>
      assert (E : walk = (if dry_run then []
                          else flat_map
                                 (write_event fnmatch nv rv exclude_extensions)
                                 under, None))
  end.
  { induction IH as [|[d sub] more Hd _ IHmore]; [now destruct dry_run|].
    cbn [snd] in Hd. cbn iota beta delta [existsb].
    destruct (existsb (String.eqb d) exclude_dirs).
    - rewrite IHmore. now destruct dry_run.
    - rewrite Hd, IHmore. destruct dry_run; [reflexivity|].
      unfold andthen. cbn [fst snd]. now rewrite flat_map_app. }
  rewrite E. destruct dry_run; [reflexivity|].
  unfold andthen. cbn [fst snd]. now rewrite flat_map_app.
Qed.

End Walks.

(** The walks with excluded directories are the walks of the pruned tree,
    whatever the dictionaries are. *)
Lemma rename_walk_prune (nv rv : dict) (exclude_dirs : list string)
    (dry_run : bool) (t : tree) :
  forall root,
    rename_walk nv rv exclude_dirs dry_run root t
    = rename_walk nv rv [] dry_run root (prune exclude_dirs t).
Proof.
  induction t as [files dirs IH] using tree_induction. intros root.
  cbn [rename_walk prune]. f_equal.
  induction IH as [|[d sub] more Hd _ IHmore]; [reflexivity|].
  cbn [snd] in Hd. cbn iota beta delta [existsb].
  destruct (existsb (String.eqb d) exclude_dirs).
  - now rewrite andthen_done_l.
  - now rewrite Hd, IHmore.
Qed.

Lemma replace_walk_prune (fnmatch : string -> string -> bool)
    (nv rv : dict) (exclude_dirs exclude_extensions : list string)
    (dry_run : bool) (t : tree) :
  forall root,
    replace_walk fnmatch nv rv exclude_dirs exclude_extensions dry_run root t
    = replace_walk fnmatch nv rv [] exclude_extensions dry_run root
        (prune exclude_dirs t).
Proof.
  induction t as [files dirs IH] using tree_induction. intros root.
  cbn [replace_walk prune]. f_equal.
  induction IH as [|[d sub] more Hd _ IHmore]; [reflexivity|].
  cbn [snd] in Hd. cbn iota beta delta [existsb].
  destruct (existsb (String.eqb d) exclude_dirs).
  - now rewrite andthen_done_l.
  - now rewrite Hd, IHmore.
Qed.

Lemma prune_names (exclude_dirs : list string) (t : tree) :
  forall d, In d exclude_dirs -> ~ In d (dir_names (prune exclude_dirs t)).
Proof.
  induction t as [files dirs IH] using tree_induction. intros x Hx.
  cbn [prune dir_names].
  induction IH as [|[d sub] more Hd _ IHmore]; [intros []|].
  cbn [snd] in Hd. cbn iota beta delta [existsb].
  destruct (existsb (String.eqb d) exclude_dirs) eqn:Hex; [exact IHmore|].
  intros [->|Hin].
  - assert (Hyes : existsb (String.eqb x) exclude_dirs = true)
      by (apply existsb_exists; exists x; split;
          [exact Hx|apply String.eqb_refl]).
    congruence.
  - apply in_app_or in Hin as [Hin|Hin]; [now apply (Hd x Hx)|now apply IHmore].
Qed.

Lemma prune_nothing (t : tree) : prune [] t = t.
Proof.
  induction t as [files dirs IH] using tree_induction.
  cbn [prune]. f_equal.
  induction IH as [|[d sub] more Hd _ IHmore]; [reflexivity|].
  cbn [snd] in Hd. cbn iota beta delta [existsb] in IHmore |- *.
  now rewrite Hd, IHmore.
Qed.

(** The prompts let the operation run, cancel it, or meet the end of the
    input; which of the three does not depend on the operation. *)
Lemma with_confirmations_cases (replacement : string) (ask : bool)
    (stdin : list string) :
  (forall k, with_confirmations replacement ask stdin k = k)
  \/ (forall k, with_confirmations replacement ask stdin k = done)
  \/ (forall k, with_confirmations replacement ask stdin k
                = ([], Some EOFError)).
Proof.
  unfold with_confirmations, confirm.
  destruct (replacement =? ""), ask, stdin as [|a [|b rest]]; cbn [andb];
    try destruct (lower a =? "y"); try destruct (lower b =? "y"); auto.
Qed.

Lemma with_confirmations_unasked (replacement : string)
    (stdin : list string) (k : outcome) :
  with_confirmations replacement false stdin k = k.
Proof. unfold with_confirmations. now rewrite andb_false_r. Qed.

Lemma flat_map_nothing {A B : Type} (f : A -> list B) (l : list A) :
  (forall x, f x = []) -> flat_map f l = [].
Proof.
  intros H. induction l as [|x l IH]; [reflexivity|].
  cbn [flat_map]. now rewrite H, IH.
Qed.

Lemma eqb_neq_empty (s : string) : s <> "" -> (s =? "") = false.
Proof. intros H. now apply String.eqb_neq. Qed.






(** X15.  The prompts.  When confirmation is asked, a first answer other
    than y or Y cancels the operation: nothing is renamed or written and
    nothing is raised.  An empty replacement asks a second question, and a
    second answer other than y or Y cancels as well.  Once every question is
    answered y or Y the operation is the one that runs without prompts. *)
Theorem prompt_answers (fnmatch : string -> string -> bool)
    (directory : string) (needle replacement : string)
    (exclude_dirs exclude_extensions : list string) (dry_run : bool) :
  (forall t a rest,
      listdir t <> [] -> needle <> "" -> lower a <> "y" ->
      rename_files directory (Some t) needle replacement exclude_dirs
        dry_run true (a :: rest) = done
      /\ replace_in_files fnmatch directory (Some t) needle replacement
           exclude_dirs exclude_extensions dry_run true (a :: rest) = done)
  /\ (forall t a b rest,
        listdir t <> [] -> needle <> "" -> replacement = "" ->
        lower b <> "y" ->
        rename_files directory (Some t) needle replacement exclude_dirs
          dry_run true (a :: b :: rest) = done
        /\ replace_in_files fnmatch directory (Some t) needle replacement
             exclude_dirs exclude_extensions dry_run true (a :: b :: rest)
           = done)
  /\ (forall fs a b rest stdin,
        lower a = "y" -> lower b = "y" ->
        stdin = (if replacement =? "" then a :: b :: rest else a :: rest) ->
        rename_files directory fs needle replacement exclude_dirs
          dry_run true stdin
        = rename_files directory fs needle replacement exclude_dirs
            dry_run false rest
        /\ replace_in_files fnmatch directory fs needle replacement
             exclude_dirs exclude_extensions dry_run true stdin
           = replace_in_files fnmatch directory fs needle replacement
               exclude_dirs exclude_extensions dry_run false rest).
Proof.
  split; [|split].
  - intros t a rest Hdir Hneedle Ha.
    apply String.eqb_neq in Ha.
    unfold rename_files, replace_in_files.
    destruct (listdir t); [contradiction|].
    rewrite (eqb_neq_empty needle Hneedle).
    unfold with_confirmations, confirm.
    destruct (replacement =? ""); cbn [andb]; rewrite Ha; now split.
  - intros t a b rest Hdir Hneedle -> Hb.
    apply String.eqb_neq in Hb.
    unfold rename_files, replace_in_files.
    destruct (listdir t); [contradiction|].
    rewrite (eqb_neq_empty needle Hneedle).
    unfold with_confirmations, confirm. cbn [String.eqb andb].
    destruct (lower a =? "y"); [rewrite Hb|]; now split.
  - intros fs a b rest stdin Ha Hb ->.
    apply String.eqb_eq in Ha, Hb.
    unfold rename_files, replace_in_files.
    destruct fs as [t|]; [|now split].
    destruct (listdir t); [now split|].
    destruct (needle =? ""); [now split|].
    rewrite !with_confirmations_unasked.
    unfold with_confirmations, confirm.
    destruct (replacement =? ""); cbn [andb]; rewrite Ha, ?Hb; now split.
Qed.

Lemma prompt_answers_witness :
  rename_files "src" (Some (Dir [("example.txt", "example")] []))
    "example" "sample" [] false true ["n"] = done
  /\ replace_in_files (fun filename pat => filename =? pat) "src"
       (Some (Dir [("example.txt", "example")] []))
       "example" "" [] [] false true ["Y"; "no"] = done
  /\ rename_files "src" (Some (Dir [("example.txt", "example")] []))
       "example" "sample" [] false true ["Y"]
     = ([Rename "src/example.txt" "src/sample.txt"], None).
Proof.
  split; [|split].
  - apply (proj1 (prompt_answers (fun filename pat => filename =? pat)
                    "src" "example" "sample" [] [] false)
             (Dir [("example.txt", "example")] []) "n" []);
      discriminate.
  - apply (proj1 (proj2 (prompt_answers (fun filename pat => filename =? pat)
                           "src" "example" "" [] [] false))
             (Dir [("example.txt", "example")] []) "Y" "no" []);
      try discriminate; reflexivity.
  - rewrite (proj1 (proj2 (proj2
               (prompt_answers (fun filename pat => filename =? pat)
                  "src" "example" "sample" [] [] false))
               (Some (Dir [("example.txt", "example")] []))
               "Y" "y" [] ["Y"] eq_refl eq_refl eq_refl)).
    reflexivity.
Defined.

Lemma generated_variation_set (text : string) :
  generate_all_case_variations text
  = variation_set text
      (to_camel_case (to_kebab_case text))
      (to_pascal_case (to_kebab_case text))
      (to_snake_case (to_kebab_case text))
      (to_kebab_case text).
Proof. reflexivity. Qed.

Lemma rename_event_same (needle : string) (f : string * string * string) :
  rename_event (generate_all_case_variations needle)
    (generate_all_case_variations needle) f = [].
Proof.
  destruct f as [[root filename] content].
  unfold rename_event, replace_text_in_filename.
  rewrite generated_variation_set, replace_first_same.
  now rewrite String.eqb_refl.
Qed.

Lemma write_event_same (fnmatch : string -> string -> bool)
    (needle : string) (exclude_extensions : list string)
    (f : string * string * string) :
  write_event fnmatch (generate_all_case_variations needle)
    (generate_all_case_variations needle) exclude_extensions f = [].
Proof.
  destruct f as [[root filename] content].
  unfold write_event.
  rewrite generated_variation_set, replace_content_same.
  rewrite String.eqb_refl. now destruct (_ && _).
Qed.

(** X16.  With the needle as replacement nothing is renamed and nothing is
    written, whatever the directory holds and whatever the options and
    answers are. *)
Theorem needle_as_replacement_changes_nothing
    (fnmatch : string -> string -> bool)
    (directory : string) (fs : option tree) (needle : string)
    (exclude_dirs exclude_extensions : list string)
    (dry_run ask : bool) (stdin : list string) :
  fst (rename_files directory fs needle needle exclude_dirs dry_run ask stdin)
  = []
  /\ fst (replace_in_files fnmatch directory fs needle needle
            exclude_dirs exclude_extensions dry_run ask stdin) = [].
Proof.
  unfold rename_files, replace_in_files.
  destruct fs as [t|]; [|now split].
  destruct (listdir t); [now split|].
  destruct (needle =? ""); [now split|].
  cbv zeta.
  destruct (with_confirmations_cases needle ask stdin) as [H|[H|H]];
    rewrite !H; [|now split|now split].
  rewrite rename_walk_events, replace_walk_events by apply generated_keys.
  cbn [fst].
  rewrite (flat_map_nothing _ _ (rename_event_same needle)).
  rewrite (flat_map_nothing _ _
             (write_event_same fnmatch needle exclude_extensions)).
  now destruct dry_run.
Qed.

(** X17.  Excluding directories is walking the tree from which every
    directory with an excluded name has been removed, at any depth below the
    starting directory, which itself is never excluded; this holds for any
    two dictionaries, also when a lookup fails.  No excluded name is left in
    the pruned tree, and with nothing to exclude the tree is walked whole. *)
Theorem excluded_directories_are_pruned
    (fnmatch : string -> string -> bool) (nv rv : dict)
    (exclude_dirs exclude_extensions : list string) (dry_run : bool)
    (root : string) (t : tree) :
  rename_walk nv rv exclude_dirs dry_run root t
  = rename_walk nv rv [] dry_run root (prune exclude_dirs t)
  /\ replace_walk fnmatch nv rv exclude_dirs exclude_extensions dry_run root t
     = replace_walk fnmatch nv rv [] exclude_extensions dry_run root
         (prune exclude_dirs t)
  /\ (forall d, In d exclude_dirs ->
                ~ In d (dir_names (prune exclude_dirs t)))
  /\ prune [] t = t.
Proof.
  split; [apply rename_walk_prune|].
  split; [apply replace_walk_prune|].
  split; [apply prune_names|apply prune_nothing].
Qed.

(** ** The text extensions *)

Lemma lower_idempotent (s : string) : lower (lower s) = lower s.
Proof.
  unfold lower. rewrite map_chars_compose.
  induction s as [|c s IH]; [reflexivity|].
  cbn [map_chars]. rewrite IH. f_equal. ascii_cases c.
Qed.

Lemma map_chars_split (f : ascii -> ascii) (a b : string) :
  forall s, map_chars f s = a ++ b ->
            exists a' b', s = a' ++ b'
                          /\ map_chars f a' = a /\ map_chars f b' = b.
Proof.
  induction a as [|x a IH]; intros s H.
  - now exists "", s.
  - destruct s as [|c s]; [discriminate|].
    cbn [map_chars] in H.
    change (String x a ++ b) with (String x (a ++ b)) in H.
    injection H as Hc Hs.
    destruct (IH s Hs) as (a' & b' & -> & Ha & Hb).
    exists (String c a'), b'. cbn [map_chars]. now rewrite Hc, Ha.
Qed.

Lemma extensions_begin_with_dot :
  forallb (prefix ".") text_file_extensions = true.
Proof. vm_compute. reflexivity. Qed.

Lemma lower_char_dot (c : ascii) : lower_char c = "."%char -> c = "."%char.
Proof.
  destruct c as [[] [] [] [] [] [] [] []]; vm_compute; intros H;
    try discriminate H; reflexivity.
Qed.

Lemma text_extension_suffix (name : string) :
  is_text_file_by_ext name = true <->
  exists p e, name = p ++ e /\ In (lower e) text_file_extensions.
Proof.
  unfold is_text_file_by_ext. rewrite existsb_exists. split.
  - intros (ext & Hin & Hend).
    apply endswith_split in Hend as [q Hq].
    apply map_chars_split in Hq as (p & e & -> & _ & He).
    exists p, e. split; [reflexivity|]. unfold lower. now rewrite He.
  - intros (p & e & -> & Hin).
    exists (lower e). split; [exact Hin|].
    unfold lower. rewrite map_chars_append. apply endswith_append.
Qed.

(** X18.  A file name has a text extension exactly when it ends with an
    extension of the list written in any mix of upper and lower case; such a
    name holds a dot, and the answer for a name is the answer for the name
    in lower case. *)
Theorem text_extension_rule (name : string) :
  (is_text_file_by_ext name = true <->
   exists p e, name = p ++ e /\ In (lower e) text_file_extensions)
  /\ (is_text_file_by_ext name = true -> Substring "." name)
  /\ is_text_file_by_ext (lower name) = is_text_file_by_ext name.
Proof.
  split; [apply text_extension_suffix|]. split.
  - intros H. apply text_extension_suffix in H as (p & e & -> & Hin).
    assert (Hdot := extensions_begin_with_dot).
    rewrite forallb_forall in Hdot. specialize (Hdot _ Hin).
    destruct e as [|c e]; [discriminate|].
    unfold lower in Hdot. cbn [map_chars] in Hdot.
    rewrite prefix_cons in Hdot. apply andb_prop in Hdot as [Hc _].
    apply Ascii.eqb_eq in Hc. symmetry in Hc. apply lower_char_dot in Hc as ->.
    now exists p, e.
  - unfold is_text_file_by_ext. now rewrite lower_idempotent.
Qed.

Lemma text_extension_rule_witness :
  is_text_file_by_ext "README.MD" = true /\ Substring "." "README.MD".
Proof.
  assert (H : is_text_file_by_ext "README.MD" = true).
  { apply (proj2 (proj1 (text_extension_rule "README.MD"))).
    exists "README", ".MD". split; [reflexivity|].
    right. left. reflexivity. }
  split; [exact H|].
  exact (proj1 (proj2 (text_extension_rule "README.MD")) H).
Defined.

(** ** The variation set and its variants *)

(** The canonical form of a text [v] from which the steps before the
    collapse give back the canonical form of [s]. *)
Lemma to_kebab_case_of_variant (s v : string) :
  hyphenate true v = to_kebab_case s ->
  to_kebab_case v = to_kebab_case s.
Proof.
  intros H. rewrite to_kebab_case_hyphenate, H.
  apply sub_hyphen_runs_fixed, to_kebab_case_single_hyphens.
Qed.

(** X19.  The variation set of a text is regenerated by its variants: the
    set generated from the kebab-case variant, or from the snake_case
    variant, has the same camelCase, PascalCase, snake_case and kebab-case
    entries as the set of the text; so has the set generated from the
    camelCase or the PascalCase variant when every hyphen-separated token of
    the kebab-case variant begins with a letter. *)
Theorem variants_regenerate_the_set (s : string) :
  tl (generate_all_case_variations (to_kebab_case s))
  = tl (generate_all_case_variations s)
  /\ tl (generate_all_case_variations (to_snake_case (to_kebab_case s)))
     = tl (generate_all_case_variations s)
  /\ (forallb begins_with_letter (split "-" (to_kebab_case s)) = true ->
      tl (generate_all_case_variations (to_camel_case (to_kebab_case s)))
      = tl (generate_all_case_variations s)
      /\ tl (generate_all_case_variations (to_pascal_case (to_kebab_case s)))
         = tl (generate_all_case_variations s)).
Proof.
  assert (Hc := to_kebab_case_chars s).
  rewrite !generated_variation_set. unfold variation_set. cbn [tl].
  rewrite (to_kebab_case_of_variant s (to_kebab_case s))
    by now apply hyphenate_fixed.
  rewrite (to_kebab_case_of_variant s (to_snake_case (to_kebab_case s)))
    by now apply hyphenate_of_snake.
  split; [reflexivity|]. split; [reflexivity|].
  intros H.
  rewrite (to_kebab_case_of_variant s (to_camel_case (to_kebab_case s)))
    by now apply hyphenate_of_camel.
  rewrite (to_kebab_case_of_variant s (to_pascal_case (to_kebab_case s)))
    by now apply hyphenate_of_pascal.
  now split.
Qed.

Lemma variants_regenerate_the_set_witness :
  tl (generate_all_case_variations (to_camel_case (to_kebab_case "example_text")))
  = tl (generate_all_case_variations "example_text")
  /\ tl (generate_all_case_variations
           (to_pascal_case (to_kebab_case "example_text")))
     = tl (generate_all_case_variations "example_text").
Proof.
  apply (proj2 (proj2 (variants_regenerate_the_set "example_text"))).
  reflexivity.
Defined.




